(** * mandarin_converter.py: annotation pipeline and translation cache

    A shallow embedding of [src/mandarin_converter.py]: the script classifier
    [is_chinese], the cache store ([load_translation_cache],
    [save_translation_cache]), the word annotator ([translate_word] and the
    body of the loop of [process_text]), the pipeline [process_text], the
    guard of [main] and the vocabulary statistics ([unique_words]).

    A Python [str] is the list of its code points.  The text literals of the
    script are the characters of the source file as Python reads it.  The external world (the
    files, what was printed, which collaborators were called and what the
    translation service answered) is an explicit [world] threaded through a
    state monad. *)

From Stdlib Require Import ZArith String Ascii.
From stdpp Require Import gmap list pretty.

Local Open Scope Z_scope.

(** ** Python strings *)

Abbreviation pystr := (list Z).

(** Text literals are written as UTF-8 and decoded to code points. *)
Fixpoint utf8_decode (bs : list Z) : pystr :=
  match bs with
  | [] => []
  | b0 :: r0 =>
    if b0 <? 128 then b0 :: utf8_decode r0
    else match r0 with
    | [] => []
    | b1 :: r1 =>
      if b0 <? 224 then
        Z.lor (Z.shiftl (Z.land b0 31) 6) (Z.land b1 63) :: utf8_decode r1
      else match r1 with
      | [] => []
      | b2 :: r2 =>
        if b0 <? 240 then
          Z.lor (Z.shiftl (Z.land b0 15) 12)
            (Z.lor (Z.shiftl (Z.land b1 63) 6) (Z.land b2 63)) :: utf8_decode r2
        else match r2 with
        | [] => []
        | b3 :: r3 =>
          Z.lor (Z.shiftl (Z.land b0 7) 18)
            (Z.lor (Z.shiftl (Z.land b1 63) 12)
               (Z.lor (Z.shiftl (Z.land b2 63) 6) (Z.land b3 63))) :: utf8_decode r3
        end
      end
    end
  end.

Fixpoint bytes_of (s : string) : list Z :=
  match s with
  | EmptyString => []
  | String a s' => Z.of_N (N_of_ascii a) :: bytes_of s'
  end.

Definition u (s : string) : pystr := utf8_decode (bytes_of s).

(** [str.isspace] on one character: the code points Python treats as
    whitespace, which are the ones [str.strip()] removes. *)
Definition isspace (c : Z) : bool :=
  (9 <=? c) && (c <=? 13) || (28 <=? c) && (c <=? 32)
  || (c =? 133) || (c =? 160) || (c =? 5760)
  || (8192 <=? c) && (c <=? 8202)
  || (c =? 8232) || (c =? 8233) || (c =? 8239) || (c =? 8287) || (c =? 12288).

Fixpoint lstrip (s : pystr) : pystr :=
  match s with
  | [] => []
  | c :: s' => if isspace c then lstrip s' else s
  end.

Definition rstrip (s : pystr) : pystr := reverse (lstrip (reverse s)).

Definition strip (s : pystr) : pystr := lstrip (rstrip s).

(** Truth value of a [str]: the empty string is false. *)
Definition truthy (s : pystr) : bool :=
  match s with [] => false | _ => true end.

(** [c in s] for a one-character [c]. *)
Definition char_in (c : Z) (s : pystr) : bool := existsb (Z.eqb c) s.

(** ** Script classifier *)

(** [is_chinese]: the loop returns [True] at the first character between
    ['一'] and ['鿿']. *)
Fixpoint is_chinese (text : pystr) : bool :=
  match text with
  | [] => false
  | char :: rest =>
    if (0x4e00 <=? char) && (char <=? 0x9fff) then true else is_chinese rest
  end.

(** ** Word records

    One entry of the list [process_text] returns: a [dict] with the keys
    ['chinese'], ['pinyin'], ['dutch'], ['hsk_level'], ['frequency'],
    ['breakdown'] and ['is_chinese']. *)
Module Item.
Record t := mk {
  chinese : pystr;
  pinyin : pystr;
  dutch : pystr;
  hsk_level : Z;
  frequency : Z;
  breakdown : option (list (pystr * pystr));
  is_chinese : bool
}.
End Item.

(** ** The world outside the program *)

(** What [translator.translate(word)] does: it returns the translation, or
    raises an [Exception] whose text is [e]. *)
Inductive outcome :=
  | Returns (translation : pystr)
  | Throws (e : pystr).

(** Calls to the collaborators, in the order they are made. *)
Inductive event :=
  | Cut (text : pystr)
  | Pinyin (text : pystr)
  | Translate (word : pystr) (o : outcome)
  | HskLevel (word : pystr)
  | Breakdown (word : pystr).

(** The exceptions that leave a function of the program. *)
Inductive exn :=
  | UnicodeDecodeError
  | FileNotFoundError
  | SystemExit (code : Z).

Inductive result (A : Type) :=
  | Ok (a : A)
  | Raise (e : exn).
Arguments Ok {A} a.
Arguments Raise {A} e.

(** [translation_cache.json] as [open(..., encoding='utf-8')] and
    [json.load] see it: bytes that are not UTF-8 ([read] raises
    [UnicodeDecodeError]), text that is not JSON ([JSONDecodeError]), or the
    text [json.dump] writes for a [dict] of strings, which [json.load] reads
    back as that [dict].  The file is the program's own: JSON of another
    shape (a list, [null], a [dict] with a value that is no string) is not
    among the cases. *)
Inductive json_file :=
  | NotUtf8
  | NotJson
  | JsonObject (d : gmap pystr pystr).

(** A text file read with [encoding='utf-8']. *)
Inductive text_file :=
  | Utf8Text (s : pystr)
  | Undecodable.

Record world := World {
  cache_file : option json_file;      (* translation_cache.json, None: absent *)
  cache_readable : bool;              (* false: open(..., 'r') raises IOError *)
  cache_write_error : option pystr;   (* Some e: open(..., 'w') raises IOError e *)
  input_file : option text_file;      (* input.txt *)
  dutch_file : option text_file;      (* input_dutch.txt *)
  output_file : option pystr;         (* output.html *)
  trace : list event;
  stdout : list pystr
}.

(** ** State monad over the world *)

Definition M (A : Type) : Type := world -> A * world.

#[global] Instance M_ret : MRet M := fun A (a : A) w => (a, w).

#[global] Instance M_bind : MBind M := fun A B (k : A -> M B) (m : M A) w =>
  let (a, w') := m w in k a w'.

Definition emit (e : event) : M unit := fun w =>
  (tt, World (cache_file w) (cache_readable w) (cache_write_error w)
         (input_file w) (dutch_file w) (output_file w)
         (trace w ++ [e]) (stdout w)).

Definition print (line : pystr) : M unit := fun w =>
  (tt, World (cache_file w) (cache_readable w) (cache_write_error w)
         (input_file w) (dutch_file w) (output_file w)
         (trace w) (stdout w ++ [line])).

Definition is_translate (e : event) : bool :=
  match e with Translate _ _ => true | _ => false end.

(** Number of calls the translation service has received so far. *)
Definition ncalls (tr : list event) : nat := length (List.filter is_translate tr).

(** ** Translation cache store *)

(** [load_translation_cache]: [{}] when the file is absent, and when
    [JSONDecodeError] or [IOError] is caught; any other exception leaves the
    function. *)
Definition load_translation_cache : M (result (gmap pystr pystr)) := fun w =>
  match cache_file w with
  | None => (Ok ∅, w)
  | Some f =>
    if cache_readable w then
      match f with
      | JsonObject d => (Ok d, w)
      | NotJson => (Ok ∅, w)
      | NotUtf8 => (Raise UnicodeDecodeError, w)
      end
    else (Ok ∅, w)
  end.

(** [save_translation_cache]: the whole mapping replaces the file.  The
    [IOError] of the model is the one [open(..., 'w')] raises, before the
    file is touched: it becomes a printed warning.  A failure of
    [json.dump] after the file was opened is not among the cases. *)
Definition save_translation_cache (cache : gmap pystr pystr) : M unit := fun w =>
  match cache_write_error w with
  | None =>
    (tt, World (Some (JsonObject cache)) (cache_readable w) (cache_write_error w)
           (input_file w) (dutch_file w) (output_file w) (trace w) (stdout w))
  | Some e => print (u "Warning: Could not save translation cache: " ++ e) w
  end.

(** Calls and printed lines added to a world. *)
Definition log (evs : list event) (lines : list pystr) (w : world) : world :=
  World (cache_file w) (cache_readable w) (cache_write_error w)
    (input_file w) (dutch_file w) (output_file w)
    (trace w ++ evs) (stdout w ++ lines).

(** The answers the translation service gave for [word], oldest first. *)
Definition translations_of (word : pystr) (tr : list event) : list outcome :=
  flat_map (fun e => match e with
                     | Translate w o => if decide (w = word) then [o] else []
                     | _ => []
                     end) tr.



(** A call the translation service answered with an exception. *)
Definition is_failure (e : event) : bool :=
  match e with Translate _ (Throws _) => true | _ => false end.

(** The text of the warning [translate_word] prints. *)
Definition translate_warning (word e : pystr) : pystr :=
  u "Warning: Could not translate '" ++ word ++ u "': " ++ e.

(** ** Annotation pipeline *)

(** The punctuation literal of [translate_word], with the characters the
    source file holds (47 of them).  The source writes it as two adjacent
    literals (the pair of single quotes in the middle closes the first and
    opens the second), so it holds the double quote twice and no single
    quote. *)
Definition PUNCTUATION : pystr :=
  u "„ÄÇÔºåÔºÅÔºü„ÄÅÔºõÔºö" ++ [34; 34] ++ u "ÔºàÔºâ„Äê„Äë„Ää„Äã‚Ä¶‚Äî".

(** Stand-ins for the collaborators, to run the pipeline on examples. *)
Module Demo.
(** A segmenter that cuts a text into its characters. *)
Definition cut (text : pystr) : list pystr := map (fun c => [c]) text.

Definition readings (text : pystr) : list (pystr * list pystr) :=
  map (fun c => ([c], [])) text.

Definition level (word : pystr) : Z * Z := (1, 100).

Definition parts (word : pystr) : option (list (pystr * pystr)) := None.

(** A translation service that is down. *)
Definition down (n : nat) (word : pystr) : outcome := Throws (u "timeout").

(** One that fails on the first call it receives and works afterwards. *)
Definition flaky (n : nat) (word : pystr) : outcome :=
  match n with
  | O => Throws (u "timeout")
  | S _ => Returns (u "dank")
  end.

(** One that works. *)
Definition up (n : nat) (word : pystr) : outcome := Returns (u "nl:" ++ word).

Definition page (results : list Item.t) (original dutch : pystr) : pystr := [].

(** A first run: no cache file yet, [input.txt] holds [text]. *)
Definition fresh (text : pystr) : world :=
  World None true None (Some (Utf8Text text)) None None [] [].

(** The two records [process_text] returns for the text ["谢谢"] with
    these stand-ins when the service fails on the first call only. *)
Definition thanks_failed : Item.t :=
  Item.mk (u "谢") (u "谢") (u "?") 1 100 None true.

Definition thanks_translated : Item.t :=
  Item.mk (u "谢") (u "谢") (u "dank") 1 100 None true.

(** A cache file whose bytes are not UTF-8, for instance the one byte
    [0xFF], or a file cut in the middle of a character. *)
Definition corrupt : world :=
  World (Some NotUtf8) true None (Some (Utf8Text (u "你好"))) None None [] [].
End Demo.

(** More worlds for the examples. *)
Module Worlds.
(** A directory with none of the files. *)
Definition no_files : world := World None true None None None None [] [].

(** [input.txt] holds [text]; the cache file cannot be written. *)
Definition read_only (text : pystr) : world :=
  World None true (Some (u "disk full")) (Some (Utf8Text text)) None None
    [] [u "earlier output"].

(** [input.txt] holds [text] and the cache holds a translation of ["你"]. *)
Definition cached (text : pystr) : world :=
  World (Some (JsonObject {[ u "你" := u "jij" ]})) true None
    (Some (Utf8Text text)) None None [] [].
End Worlds.

Section Pipeline.

(** Collaborators from [jieba], [pypinyin], [deep_translator] and
    [hsk_data]. *)
Variable jieba_cut : pystr -> list pystr.
(** [pinyin(text, style=Style.TONE)]: per character, its readings, the first
    one apart. *)
Variable pinyin : pystr -> list (pystr * list pystr).
Variable get_hsk_level : pystr -> Z * Z.
Variable get_character_breakdown : pystr -> option (list (pystr * pystr)).
(** The translation service: its answer to the [n]-th call it receives. *)
Variable translate : nat -> pystr -> outcome.
(** The page [generate_html] renders. *)
Variable generate_html : list Item.t -> pystr -> pystr -> pystr.

Definition get_pinyin (text : pystr) : M pystr :=
  emit (Pinyin text);;
  mret (concat (map fst (pinyin text))).

Definition segment_text (text : pystr) : M (list pystr) :=
  emit (Cut text);;
  mret (jieba_cut text).

Definition translator_translate (word : pystr) : M outcome := fun w =>
  let o := translate (ncalls (trace w)) word in
  (o, snd (emit (Translate word o) w)).

Definition hsk_lookup (word : pystr) : M (Z * Z) :=
  emit (HskLevel word);;
  mret (get_hsk_level word).

Definition breakdown_lookup (word : pystr) : M (option (list (pystr * pystr))) :=
  emit (Breakdown word);;
  mret (get_character_breakdown word).

(** [translate_word].  The [dict] is mutated in place; the model returns it
    next to the translation. *)
Definition translate_word (word : pystr) (cache : gmap pystr pystr)
  : M (pystr * gmap pystr pystr) :=
  if negb (truthy (strip word)) || forallb (fun c => char_in c PUNCTUATION) word
  then mret (word, cache)
  else
    match cache !! word with
    | Some cached => mret (cached, cache)
    | None =>
      o ← translator_translate word;
      match o with
      | Returns translation => mret (translation, <[word := translation]> cache)
      | Throws e =>
        print (u "Warning: Could not translate '" ++ word ++ u "': " ++ e);;
        mret (u "?", cache)
      end
    end.

(** The body of the loop of [process_text], on the loop's state: the cache
    and the [results] so far. *)
Definition process_word (word : pystr) (st : gmap pystr pystr * list Item.t)
  : M (gmap pystr pystr * list Item.t) :=
  let '(cache, results) := st in
  let word := strip word in
  if negb (truthy word) then mret (cache, results)
  else if is_chinese word then
    word_pinyin ← get_pinyin word;
    '(dutch_translation, cache) ← translate_word word cache;
    '(hsk_level, frequency) ← hsk_lookup word;
    breakdown ← breakdown_lookup word;
    mret (cache, results ++
      [Item.mk word word_pinyin dutch_translation hsk_level frequency breakdown true])
  else
    mret (cache, results ++ [Item.mk word word word 0 0 None false]).

Fixpoint process_words (words : list pystr) (st : gmap pystr pystr * list Item.t)
  : M (gmap pystr pystr * list Item.t) :=
  match words with
  | [] => mret st
  | word :: rest => st' ← process_word word st; process_words rest st'
  end.

Definition process_text (chinese_text : pystr) : M (result (list Item.t)) :=
  loaded ← load_translation_cache;
  match loaded with
  | Raise e => mret (Raise e)
  | Ok cache =>
    words ← segment_text chinese_text;
    '(cache, results) ← process_words words (cache, []);
    save_translation_cache cache;;
    mret (Ok results)
  end.

(** ** Vocabulary statistics *)

(** [d[k] = v] on a [dict], which keeps its keys in insertion order: a key
    already there keeps its place and takes the new value. *)
Fixpoint dict_set {V} (d : list (pystr * V)) (k : pystr) (v : V) : list (pystr * V) :=
  match d with
  | [] => [(k, v)]
  | (k', v') :: d' =>
    if decide (k' = k) then (k', v) :: d' else (k', v') :: dict_set d' k v
  end.

(** [[r for r in results if r['is_chinese']]] *)
Definition chinese_words (results : list Item.t) : list Item.t :=
  List.filter Item.is_chinese results.

(** [{r['chinese']: r for r in chinese_words}] *)
Definition by_chinese (words : list Item.t) : list (pystr * Item.t) :=
  foldl (fun d r => dict_set d (Item.chinese r) r) [] words.

(** [list({r['chinese']: r for r in chinese_words}.values())] *)
Definition unique_words (results : list Item.t) : list Item.t :=
  map snd (by_chinese (chinese_words results)).

(** Deduplication keeping the first occurrence of each element, the list a
    reader expects from "first occurrence wins"; [unique_words] is compared
    with it. *)
Fixpoint first_occurrences (l : list pystr) : list pystr :=
  match l with
  | [] => []
  | x :: l' => x :: filter (fun y => y <> x) (first_occurrences l')
  end.

(** The loop filling [hsk_counts] in [generate_html]. *)
Definition hsk_counts (results : list Item.t) : gmap Z Z :=
  foldl (fun counts word =>
           let level := Item.hsk_level word in
           <[level := default 0 (counts !! level) + 1]> counts)
        ∅ (unique_words results).

(** [sum(len(r['chinese']) for r in chinese_words)] *)
Definition total_characters (results : list Item.t) : nat :=
  foldr (fun r n => (length (Item.chinese r) + n)%nat) 0%nat (chinese_words results).

(** ** The script's entry point *)

Definition str_of_nat (n : nat) : pystr := u (pretty n).

Definition sample_text : pystr :=
  u "‰Ω†Â•ΩÔºåÊàëÂè´Â∞èÊòé„ÄÇÊàëÊòØ‰∏≠ÂõΩ‰∫∫„ÄÇÊàëÂñúÊ¨¢Â≠¶‰π†Ê±âËØ≠„ÄÇ" ++ [10] ++
  u "‰ªäÂ§©Â§©Ê∞îÂæàÂ•Ω„ÄÇÊàëÊÉ≥ÂéªÂÖ¨Âõ≠Êï£Ê≠•„ÄÇ" ++ [10] ++
  u "‰Ω†ÂñúÊ¨¢ÂêÉ‰ªÄ‰πàÔºüÊàëÂñúÊ¨¢ÂêÉÁ±≥È•≠ÂíåËî¨Ëèú„ÄÇ".

Definition write_input (s : pystr) : M unit := fun w =>
  (tt, World (cache_file w) (cache_readable w) (cache_write_error w)
         (Some (Utf8Text s)) (dutch_file w) (output_file w) (trace w) (stdout w)).

Definition write_dutch (s : pystr) : M unit := fun w =>
  (tt, World (cache_file w) (cache_readable w) (cache_write_error w)
         (input_file w) (Some (Utf8Text s)) (output_file w) (trace w) (stdout w)).

Definition write_output (s : pystr) : M unit := fun w =>
  (tt, World (cache_file w) (cache_readable w) (cache_write_error w)
         (input_file w) (dutch_file w) (Some s) (trace w) (stdout w)).

(** [f.read()] on a file opened with [encoding='utf-8']. *)
Definition read_text (f : option text_file) : result pystr :=
  match f with
  | None => Raise FileNotFoundError
  | Some Undecodable => Raise UnicodeDecodeError
  | Some (Utf8Text s) => Ok s
  end.

(** The lines of the preview: [for i, word in enumerate(unique_words[:10])]. *)
Fixpoint print_preview (words : list Item.t) : M unit :=
  match words with
  | [] => mret tt
  | word :: rest =>
    let hsk := if 0 <? Item.hsk_level word
               then u "HSK" ++ u (pretty (Item.hsk_level word)) else u "?" in
    print (u "   " ++ Item.chinese word ++ u " | " ++ Item.pinyin word ++ u " | "
             ++ Item.dutch word ++ u " | " ++ hsk);;
    print_preview rest
  end.

(** The summary [main] prints once the page is written. *)
Definition print_summary (results : list Item.t) : M unit :=
  let chinese_words := chinese_words results in
  let unique_words := unique_words results in
  print (replicate 60 61);;
  print (u "üìä SAMENVATTING");;
  print (replicate 60 61);;
  print (u "   Totaal woorden: " ++ str_of_nat (length chinese_words));;
  print (u "   Unieke woorden: " ++ str_of_nat (length unique_words));;
  print (u "   Totaal karakters: " ++ str_of_nat (total_characters results));;
  print [];;
  print (u "üìù VOORBEELD (eerste 10 woorden):");;
  print (replicate 60 45);;
  print_preview (take 10 unique_words);;
  (if bool_decide (10 < length unique_words)%nat
   then print (u "   ... en " ++ str_of_nat (length unique_words - 10) ++ u " meer woorden")
   else mret tt);;
  print [];;
  print (u "üåê Open 'output.html' in je browser voor de volledige interactieve weergave!");;
  print [].

(** The optional Dutch text: read and stripped when [input_dutch.txt]
    exists, otherwise the file is created and the text is empty. *)
Definition read_dutch : M (result pystr) := fun w =>
  match dutch_file w with
  | Some f =>
    (print (u "üìñ Lezen van 'input_dutch.txt'...");;
     match read_text (Some f) with
     | Raise e => mret (Raise e)
     | Ok raw =>
       let dutch_full_text := strip raw in
       (if truthy dutch_full_text
        then print (u "   ‚úì Nederlandse vertaling geladen ("
                      ++ str_of_nat (length dutch_full_text) ++ u " karakters)")
        else mret tt);;
       mret (Ok dutch_full_text)
     end) w
  | None =>
    (print (u "‚ÑπÔ∏è  Geen 'input_dutch.txt' gevonden. Maak dit bestand aan voor de volledige Nederlandse vertaling.");;
     write_dutch (u "# Voeg hier de Nederlandse vertaling van de Chinese tekst toe" ++ [10]);;
     print (u "   üìù Leeg bestand 'input_dutch.txt' aangemaakt.");;
     mret (Ok [])) w
  end.

(** [main] once the input text is known to be non-empty. *)
Definition main_process (chinese_text : pystr) : M (result unit) :=
  d ← read_dutch;
  match d with
  | Raise e => mret (Raise e)
  | Ok dutch_full_text =>
    print (u "ÔøΩ Verwerken van " ++ str_of_nat (length chinese_text)
             ++ u " karakters...");;
    print [];;
    r ← process_text chinese_text;
    match r with
    | Raise e => mret (Raise e)
    | Ok results =>
      print (u "üé® HTML genereren...");;
      write_output (generate_html results chinese_text dutch_full_text);;
      print (u "‚úÖ Uitvoer opgeslagen naar 'output.html'");;
      print [];;
      print_summary results;;
      mret (Ok tt)
    end
  end.

(** [if not os.path.exists(input_file)]: the sample file is created. *)
Definition ensure_input : M unit := fun w =>
  match input_file w with
  | None =>
    (write_input sample_text;;
     print (u "üìù Voorbeeld bestand 'input.txt' aangemaakt.");;
     print (u "   Bewerk dit bestand met je Chinese tekst en voer het script opnieuw uit.");;
     print []) w
  | Some _ => (tt, w)
  end.

Definition read_input : M (result pystr) := fun w => (read_text (input_file w), w).

Definition main : M (result unit) :=
  ensure_input;;
  print (u "üìñ Lezen van 'input.txt'...");;
  r ← read_input;
  match r with
  | Raise e => mret (Raise e)
  | Ok raw =>
    let chinese_text := strip raw in
    if negb (truthy chinese_text) then
      print (u "‚ùå Het invoerbestand is leeg. Voeg Chinese tekst toe aan input.txt");;
      mret (Raise (SystemExit 1))
    else main_process chinese_text
  end.

(** The record [process_text] appends for a word with an ideograph, given
    its translation, and the one it appends for any other word. *)
Definition chinese_item (word dutch : pystr) : Item.t :=
  Item.mk word (concat (map fst (pinyin word))) dutch
    (fst (get_hsk_level word)) (snd (get_hsk_level word))
    (get_character_breakdown word) true.

Definition plain_item (word : pystr) : Item.t :=
  Item.mk word word word 0 0 None false.

(** What one turn of the loop does to the cache, which records it appends,
    which collaborators it calls and what it prints: the five paths through
    the body of the loop. *)
Inductive step (word : pystr) (cache : gmap pystr pystr) (w : world)
  : gmap pystr pystr -> list Item.t -> list event -> list pystr -> Prop :=
  | step_skip :
      strip word = [] ->
      step word cache w cache [] [] []
  | step_plain :
      strip word <> [] -> is_chinese (strip word) = false ->
      step word cache w cache [plain_item (strip word)] [] []
  | step_hit cached :
      is_chinese (strip word) = true -> cache !! strip word = Some cached ->
      step word cache w cache [chinese_item (strip word) cached]
        [Pinyin (strip word); HskLevel (strip word); Breakdown (strip word)] []
  | step_translated translation :
      is_chinese (strip word) = true -> cache !! strip word = None ->
      translate (ncalls (trace w)) (strip word) = Returns translation ->
      step word cache w (<[strip word := translation]> cache)
        [chinese_item (strip word) translation]
        [Pinyin (strip word); Translate (strip word) (Returns translation);
         HskLevel (strip word); Breakdown (strip word)] []
  | step_failed e :
      is_chinese (strip word) = true -> cache !! strip word = None ->
      translate (ncalls (trace w)) (strip word) = Throws e ->
      step word cache w cache [chinese_item (strip word) (u "?")]
        [Pinyin (strip word); Translate (strip word) (Throws e);
         HskLevel (strip word); Breakdown (strip word)]
        [translate_warning (strip word) e].

(** The turns of the loop over a list of words, one after the other. *)
Inductive steps : list pystr -> gmap pystr pystr -> world
  -> gmap pystr pystr -> list Item.t -> list event -> list pystr -> Prop :=
  | steps_nil cache w : steps [] cache w cache [] [] []
  | steps_cons word words cache w c1 i1 e1 l1 c2 i2 e2 l2 :
      step word cache w c1 i1 e1 l1 ->
      steps words c1 (log e1 l1 w) c2 i2 e2 l2 ->
      steps (word :: words) cache w c2 (i1 ++ i2) (e1 ++ e2) (l1 ++ l2).

(** The warnings owed to a list of calls: one per call the translation
    service answered with an exception. *)
Definition warnings_of (evs : list event) : list pystr :=
  flat_map (fun ev => match ev with
                      | Translate word (Throws e) => [translate_warning word e]
                      | _ => []
                      end) evs.

(** The arguments of the calls to [get_pinyin], to [get_hsk_level] and to
    [get_character_breakdown] in a list of calls. *)
Definition pinyin_calls (evs : list event) : list pystr :=
  flat_map (fun ev => match ev with Pinyin text => [text] | _ => [] end) evs.

Definition hsk_calls (evs : list event) : list pystr :=
  flat_map (fun ev => match ev with HskLevel word => [word] | _ => [] end) evs.

Definition breakdown_calls (evs : list event) : list pystr :=
  flat_map (fun ev => match ev with Breakdown word => [word] | _ => [] end) evs.

(** The distinct Chinese words of a list of stripped tokens that a cache
    does not hold. *)
Definition new_words (cache : gmap pystr pystr) (tokens : list pystr) : list pystr :=
  first_occurrences
    (filter (fun s => is_chinese s = true /\ cache !! s = None) tokens).

(** [hsk_counts.get(1, 0) + hsk_counts.get(2, 0)], the fourth figure of the
    statistics of [generate_html]. *)
Definition hsk_1_2 (results : list Item.t) : Z :=
  default 0 (hsk_counts results !! 1) + default 0 (hsk_counts results !! 2).

(** The sum of the values of a [dict] of counts. *)
Definition counts_sum (counts : gmap Z Z) : Z :=
  map_fold (fun _ n acc => n + acc) 0 counts.

(** The line [save_translation_cache] prints when the write fails. *)
Definition save_warning (w : world) : list pystr :=
  match cache_write_error w with
  | None => []
  | Some e => [u "Warning: Could not save translation cache: " ++ e]
  end.

(** The calls made and the lines printed between two worlds. *)
Definition new_calls (w w' : world) : list event :=
  drop (length (trace w)) (trace w').

Definition new_lines (w w' : world) : list pystr :=
  drop (length (stdout w)) (stdout w').

(** The arguments of the calls to [jieba.cut] in a list of calls. *)
Definition cut_calls (evs : list event) : list pystr :=
  flat_map (fun ev => match ev with Cut text => [text] | _ => [] end) evs.

(** The test of the first [if] of [translate_word]: the word is blank or
    made of punctuation only. *)
Definition skipped (word : pystr) : bool :=
  negb (truthy (strip word)) || forallb (fun c => char_in c PUNCTUATION) word.

(** Two worlds with the same cache file, output file and calls: they
    differ at most in [input.txt], [input_dutch.txt] and what was
    printed. *)
Definition quiet (w w2 : world) : Prop :=
  cache_file w2 = cache_file w /\ cache_readable w2 = cache_readable w /\
  cache_write_error w2 = cache_write_error w /\
  output_file w2 = output_file w /\ trace w2 = trace w.

(** The Dutch text [main] hands to [generate_html]: the stripped contents of
    [input_dutch.txt], empty when the file is absent. *)
Definition dutch_text_of (f : option text_file) : result pystr :=
  match f with
  | None => Ok []
  | Some (Utf8Text d) => Ok (strip d)
  | Some Undecodable => Raise UnicodeDecodeError
  end.

(** An action that only prints. *)
Definition prints_only (m : M unit) : Prop :=
  exists lines, forall w, m w = (tt, log [] lines w).

(** The same world with another answer to [open(..., 'w')] on the cache
    file, and the same world with a cache file holding the empty [dict]. *)
Definition with_write_error (err : option pystr) (w : world) : world :=
  World (cache_file w) (cache_readable w) err
    (input_file w) (dutch_file w) (output_file w) (trace w) (stdout w).


(** * Properties *)

(** ** Strings *)

Lemma lstrip_head s c r : lstrip s = c :: r -> isspace c = false.
Proof.
  induction s as [|a s IH]; simpl; [discriminate|].
  destruct (isspace a) eqn:Ha; [exact IH|].
  intros [= <- _]; exact Ha.
Qed.

Lemma lstrip_split s : exists p, s = p ++ lstrip s.
Proof.
  induction s as [|a s [p Hp]]; simpl.
  - by exists [].
  - destruct (isspace a).
    + exists (a :: p). simpl. by f_equal.
    + by exists [].
Qed.

Lemma lstrip_keeps s c : c ∈ s -> isspace c = false -> c ∈ lstrip s.
Proof.
  induction s as [|a s IH]; simpl; intros Hin Hc; [done|].
  destruct (isspace a) eqn:Ha; [|done].
  apply elem_of_cons in Hin as [->|Hin]; [congruence|by apply IH].
Qed.

Lemma strip_keeps s c : c ∈ s -> isspace c = false -> c ∈ strip s.
Proof.
  intros Hin Hc. unfold strip, rstrip.
  apply lstrip_keeps; [|done].
  apply elem_of_reverse, lstrip_keeps; [|done].
  by apply elem_of_reverse.
Qed.

Lemma strip_no_leading s c r : strip s = c :: r -> isspace c = false.
Proof. apply lstrip_head. Qed.

Lemma strip_no_trailing s c : last (strip s) = Some c -> isspace c = false.
Proof.
  unfold strip. intros Hl.
  destruct (lstrip_split (rstrip s)) as [p Hp].
  assert (last (rstrip s) = Some c) as Hr.
  { rewrite Hp. destruct (lstrip (rstrip s)) as [|a t] eqn:E; [done|].
    rewrite <- Hl. by rewrite last_app_cons. }
  unfold rstrip in Hr. rewrite last_reverse in Hr.
  destruct (lstrip (reverse s)) as [|a t] eqn:E; [done|].
  simpl in Hr. injection Hr as ->. by eapply lstrip_head.
Qed.

(** ** Script classifier *)

Lemma is_chinese_elem text :
  is_chinese text = true <-> exists char, char ∈ text /\ 0x4e00 <= char <= 0x9fff.
Proof.
  induction text as [|a text IH]; simpl.
  - split; [discriminate|]. intros (c & Hc & _). by apply elem_of_nil in Hc.
  - destruct ((19968 <=? a) && (a <=? 40959)) eqn:E.
    + split; [|done]. intros _. exists a. split; [left|]. lia.
    + rewrite IH. split.
      * intros (c & Hc & Hr). exists c. split; [by right|done].
      * intros (c & Hc & Hr). apply elem_of_cons in Hc as [->|Hc]; [lia|].
        by exists c.
Qed.

(** C9: [is_chinese] answers [True] exactly for the texts holding a
    character from U+4E00 to U+9FFF, both ends included; one such character
    is enough whatever surrounds it.  The function is total and returns a
    boolean on every text. *)
Theorem is_chinese_spec :
  (forall text, is_chinese text = true <->
                exists char, char ∈ text /\ 0x4e00 <= char <= 0x9fff) /\
  (forall before char after, 0x4e00 <= char <= 0x9fff ->
                             is_chinese (before ++ char :: after) = true) /\
  (forall text, is_chinese text = false <->
                forall char, char ∈ text -> char < 0x4e00 \/ 0x9fff < char).
Proof.
  split; [exact is_chinese_elem|]. split.
  - intros before c after Hc. apply is_chinese_elem. exists c.
    split; [|done]. apply elem_of_app. right. left.
  - intros text. split.
    + intros Hf c Hc.
      destruct (decide (0x4e00 <= c <= 0x9fff)) as [Hr|Hr]; [|lia].
      assert (is_chinese text = true) by (apply is_chinese_elem; eauto).
      congruence.
    + intros Hall. destruct (is_chinese text) eqn:E; [|done].
      apply is_chinese_elem in E as (c & Hc & Hr).
      specialize (Hall c Hc). lia.
Qed.

Lemma ideograph_not_space c : 0x4e00 <= c <= 0x9fff -> isspace c = false.
Proof.
  intros Hc. unfold isspace.
  rewrite ?orb_false_iff, ?andb_false_iff, ?Z.leb_gt, ?Z.eqb_neq. lia.
Qed.

Lemma ideograph_not_punctuation c :
  0x4e00 <= c <= 0x9fff -> char_in c PUNCTUATION = false.
Proof.
  intros Hc. unfold char_in.
  destruct (existsb (Z.eqb c) PUNCTUATION) eqn:E; [|done].
  apply existsb_exists in E as (p & Hp & Heq).
  apply Z.eqb_eq in Heq as <-.
  assert (forallb (fun p => negb ((0x4e00 <=? p) && (p <=? 0x9fff))) PUNCTUATION = true)
    as Hall by (vm_compute; reflexivity).
  rewrite forallb_forall in Hall. specialize (Hall c Hp).
  apply negb_true_iff, andb_false_iff in Hall. lia.
Qed.

(** A word with an ideograph is never taken for punctuation by
    [translate_word]. *)
Lemma chinese_not_skipped word :
  is_chinese word = true ->
  negb (truthy (strip word)) || forallb (fun c => char_in c PUNCTUATION) word = false.
Proof.
  intros (c & Hc & Hr)%is_chinese_elem.
  apply orb_false_iff. split.
  - pose proof (strip_keeps word c Hc (ideograph_not_space c Hr)) as Hin.
    destruct (strip word); [by apply elem_of_nil in Hin|done].
  - destruct (forallb _ word) eqn:E; [|done].
    rewrite forallb_forall in E. apply list_elem_of_In in Hc.
    specialize (E c Hc). by rewrite ideograph_not_punctuation in E.
Qed.

(** ** The world *)

Lemma log_nil w : log [] [] w = w.
Proof. destruct w. unfold log. simpl. by rewrite !app_nil_r. Qed.

Lemma log_log e1 o1 e2 o2 w :
  log e2 o2 (log e1 o1 w) = log (e1 ++ e2) (o1 ++ o2) w.
Proof. unfold log. simpl. by rewrite !app_assoc. Qed.

Lemma emit_log e w : emit e w = (tt, log [e] [] w).
Proof. unfold emit, log. by rewrite app_nil_r. Qed.

Lemma print_log line w : print line w = (tt, log [] [line] w).
Proof. unfold print, log. by rewrite app_nil_r. Qed.

Lemma ncalls_app tr1 tr2 : ncalls (tr1 ++ tr2) = (ncalls tr1 + ncalls tr2)%nat.
Proof. unfold ncalls. by rewrite List.filter_app, length_app. Qed.

Lemma translations_of_app word tr1 tr2 :
  translations_of word (tr1 ++ tr2) = translations_of word tr1 ++ translations_of word tr2.
Proof. unfold translations_of. apply flat_map_app. Qed.

Ltac run := unfold mbind, M_bind, mret, M_ret; simpl.

(** Two worlds built from the same one by adding calls and lines. *)
Ltac same_world :=
  unfold log, emit, print; simpl;
  rewrite ?app_nil_r, <- ?app_assoc; simpl; reflexivity.

(** ** One call of [translate_word] *)

Lemma translate_word_hit word cache cached w :
  is_chinese word = true -> cache !! word = Some cached ->
  translate_word word cache w = ((cached, cache), w).
Proof.
  intros Hc Hhit. unfold translate_word.
  rewrite (chinese_not_skipped word Hc), Hhit. by run.
Qed.

Lemma translate_word_miss word cache w :
  is_chinese word = true -> cache !! word = None ->
  translate_word word cache w =
    match translate (ncalls (trace w)) word with
    | Returns translation =>
      ((translation, <[word := translation]> cache),
       log [Translate word (Returns translation)] [] w)
    | Throws e =>
      ((u "?", cache),
       log [Translate word (Throws e)] [translate_warning word e] w)
    end.
Proof.
  intros Hc Hmiss. unfold translate_word.
  rewrite (chinese_not_skipped word Hc), Hmiss.
  unfold translator_translate. run.
  destruct (translate (ncalls (trace w)) word) as [t|e]; same_world.
Qed.

(** ** One turn of the loop of [process_text] *)

Lemma process_word_empty word cache results w :
  strip word = [] -> process_word word (cache, results) w = ((cache, results), w).
Proof. intros E. unfold process_word. rewrite E. by run. Qed.

Lemma process_word_plain word cache results w :
  strip word <> [] -> is_chinese (strip word) = false ->
  process_word word (cache, results) w
  = ((cache, results ++ [plain_item (strip word)]), w).
Proof.
  intros Hne Hc. unfold process_word. rewrite Hc.
  destruct (strip word); [done|]. by run.
Qed.

Lemma process_word_hit word cache results cached w :
  is_chinese (strip word) = true -> cache !! strip word = Some cached ->
  process_word word (cache, results) w
  = ((cache, results ++ [chinese_item (strip word) cached]),
     log [Pinyin (strip word); HskLevel (strip word); Breakdown (strip word)] [] w).
Proof.
  intros Hc Hhit. unfold process_word. rewrite Hc.
  destruct (strip word) as [|c r] eqn:E; [done|].
  unfold get_pinyin, hsk_lookup, breakdown_lookup.
  unfold mbind, M_bind, mret, M_ret. cbn [negb truthy]. cbv beta iota.
  rewrite emit_log. cbv beta iota.
  rewrite (translate_word_hit _ _ _ _ Hc Hhit). cbv beta iota.
  unfold chinese_item. destruct (get_hsk_level (c :: r)) as [h f].
  same_world.
Qed.

Lemma process_word_miss word cache results w :
  is_chinese (strip word) = true -> cache !! strip word = None ->
  process_word word (cache, results) w =
    match translate (ncalls (trace w)) (strip word) with
    | Returns translation =>
      ((<[strip word := translation]> cache,
        results ++ [chinese_item (strip word) translation]),
       log [Pinyin (strip word); Translate (strip word) (Returns translation);
            HskLevel (strip word); Breakdown (strip word)] [] w)
    | Throws e =>
      ((cache, results ++ [chinese_item (strip word) (u "?")]),
       log [Pinyin (strip word); Translate (strip word) (Throws e);
            HskLevel (strip word); Breakdown (strip word)]
           [translate_warning (strip word) e] w)
    end.
Proof.
  intros Hc Hmiss. unfold process_word. rewrite Hc.
  destruct (strip word) as [|c r] eqn:E; [done|].
  unfold get_pinyin, hsk_lookup, breakdown_lookup.
  unfold mbind, M_bind, mret, M_ret. cbn [negb truthy]. cbv beta iota.
  rewrite emit_log. cbv beta iota.
  rewrite (translate_word_miss _ _ _ Hc Hmiss).
  assert (ncalls (trace (log [Pinyin (c :: r)] [] w)) = ncalls (trace w)) as ->.
  { unfold log. cbn [trace]. rewrite ncalls_app.
    change (ncalls [Pinyin (c :: r)]) with 0%nat. lia. }
  unfold chinese_item. destruct (get_hsk_level (c :: r)) as [h f].
  destruct (translate (ncalls (trace w)) (c :: r)) as [t|e]; same_world.
Qed.

(** Every turn of the loop takes one of the five paths, and the path fixes
    what the turn returns. *)
Lemma step_total word cache w :
  exists cache' items evs lines, step word cache w cache' items evs lines.
Proof.
  destruct (decide (strip word = [])) as [He|He].
  { eexists _, _, _, _. by apply step_skip. }
  destruct (is_chinese (strip word)) eqn:Hc.
  2:{ eexists _, _, _, _. by apply step_plain. }
  destruct (cache !! strip word) as [cached|] eqn:Hl.
  { eexists _, _, _, _. by eapply step_hit. }
  destruct (translate (ncalls (trace w)) (strip word)) as [t|e] eqn:Ht.
  - eexists _, _, _, _. by eapply step_translated.
  - eexists _, _, _, _. by eapply step_failed.
Qed.

Lemma process_word_of_step word cache results w cache' items evs lines :
  step word cache w cache' items evs lines ->
  process_word word (cache, results) w = ((cache', results ++ items), log evs lines w).
Proof.
  intros [He|Hne Hc|cached Hc Hl|t Hc Hl Ht|e Hc Hl Ht].
  - by rewrite process_word_empty, app_nil_r, log_nil.
  - by rewrite process_word_plain, log_nil.
  - by apply process_word_hit.
  - by rewrite process_word_miss, Ht.
  - by rewrite process_word_miss, Ht.
Qed.

Lemma process_words_cons word words st w :
  process_words (word :: words) st w
  = let (st', w') := process_word word st w in process_words words st' w'.
Proof. reflexivity. Qed.

Lemma steps_total words cache w :
  exists cache' items evs lines, steps words cache w cache' items evs lines.
Proof.
  revert cache w. induction words as [|word words IH]; intros cache w.
  - eexists _, _, _, _. constructor.
  - destruct (step_total word cache w) as (c1 & i1 & e1 & l1 & Hstep).
    destruct (IH c1 (log e1 l1 w)) as (c2 & i2 & e2 & l2 & Hsteps).
    eexists _, _, _, _. by econstructor.
Qed.

Lemma process_words_of_steps words cache results w cache' items evs lines :
  steps words cache w cache' items evs lines ->
  process_words words (cache, results) w
  = ((cache', results ++ items), log evs lines w).
Proof.
  intros Hsteps. revert results.
  induction Hsteps as [|word words cache w c1 i1 e1 l1 c2 i2 e2 l2 Hstep _ IH];
    intros results.
  - simpl. unfold mret, M_ret. by rewrite app_nil_r, log_nil.
  - rewrite process_words_cons, (process_word_of_step _ _ _ _ _ _ _ _ Hstep), IH.
    by rewrite log_log, app_assoc.
Qed.

Lemma process_words_steps words cache results w :
  exists cache' items evs lines,
    steps words cache w cache' items evs lines /\
    process_words words (cache, results) w
    = ((cache', results ++ items), log evs lines w).
Proof.
  destruct (steps_total words cache w) as (c & i & e & l & Hsteps).
  exists c, i, e, l. split; [done|]. by apply process_words_of_steps.
Qed.

(** ** The loop as a whole *)

Lemma process_words_app pre post st w :
  process_words (pre ++ post) st w
  = let (st', w') := process_words pre st w in process_words post st' w'.
Proof.
  revert st w. induction pre as [|word pre IH]; intros st w; [done|].
  rewrite <- app_comm_cons, !process_words_cons.
  destruct (process_word word st w) as [st1 w1]. apply IH.
Qed.

Lemma step_surface word cache w cache' items evs lines :
  step word cache w cache' items evs lines ->
  map Item.chinese items = filter (fun s => s <> []) [strip word].
Proof.
  intros [He|Hne Hc|cached Hc Hl|t Hc Hl Ht|e Hc Hl Ht]; simpl.
  - by rewrite filter_cons_False, filter_nil by (by intros ?).
  - by rewrite filter_cons_True, filter_nil.
  - rewrite filter_cons_True, filter_nil; [done|]. intros E. by rewrite E in Hc.
  - rewrite filter_cons_True, filter_nil; [done|]. intros E. by rewrite E in Hc.
  - rewrite filter_cons_True, filter_nil; [done|]. intros E. by rewrite E in Hc.
Qed.

Lemma steps_surfaces words cache w cache' items evs lines :
  steps words cache w cache' items evs lines ->
  map Item.chinese items = filter (fun s => s <> []) (map strip words).
Proof.
  induction 1 as [|word words cache w c1 i1 e1 l1 c2 i2 e2 l2 Hstep _ IH]; [done|].
  rewrite map_app, IH, (step_surface _ _ _ _ _ _ _ Hstep).
  change (map strip (word :: words)) with ([strip word] ++ map strip words).
  by rewrite filter_app.
Qed.

Lemma step_mono word cache w cache' items evs lines :
  step word cache w cache' items evs lines -> cache ⊆ cache'.
Proof.
  intros [He|Hne Hc|cached Hc Hl|t Hc Hl Ht|e Hc Hl Ht]; try done.
  by apply insert_subseteq.
Qed.

Lemma steps_mono words cache w cache' items evs lines :
  steps words cache w cache' items evs lines -> cache ⊆ cache'.
Proof.
  induction 1 as [|word words cache w c1 i1 e1 l1 c2 i2 e2 l2 Hstep _ IH]; [done|].
  etrans; [by eapply step_mono|done].
Qed.

(** A word of the cache is not sent to the translation service, stays in
    the cache, and its records carry the cached text. *)
Lemma step_cached word cache w cache' items evs lines k g :
  step word cache w cache' items evs lines ->
  cache !! k = Some g ->
  translations_of k evs = [] /\
  forall r, r ∈ items -> Item.chinese r = k -> Item.is_chinese r = true ->
            Item.dutch r = g.
Proof.
  intros [He|Hne Hc|cached Hc Hl|t Hc Hl Ht|e Hc Hl Ht] Hk.
  - split; [done|]. intros r Hr. by apply elem_of_nil in Hr.
  - split; [done|]. intros r ->%list_elem_of_singleton _. discriminate.
  - split; [done|]. intros r ->%list_elem_of_singleton. simpl. congruence.
  - assert (strip word <> k) as Hne by congruence.
    split; [simpl; by destruct (decide (strip word = k))|].
    intros r ->%list_elem_of_singleton. simpl. congruence.
  - assert (strip word <> k) as Hne by congruence.
    split; [simpl; by destruct (decide (strip word = k))|].
    intros r ->%list_elem_of_singleton. simpl. congruence.
Qed.

Lemma steps_cached words cache w cache' items evs lines k g :
  steps words cache w cache' items evs lines ->
  cache !! k = Some g ->
  translations_of k evs = [] /\ cache' !! k = Some g /\
  forall r, r ∈ items -> Item.chinese r = k -> Item.is_chinese r = true ->
            Item.dutch r = g.
Proof.
  induction 1 as [|word words cache w c1 i1 e1 l1 c2 i2 e2 l2 Hstep _ IH]; intros Hk.
  - split; [done|]. split; [done|]. intros r Hr. by apply elem_of_nil in Hr.
  - destruct (step_cached _ _ _ _ _ _ _ k g Hstep Hk) as [Ht1 Hr1].
    assert (c1 !! k = Some g) as Hk1.
    { eapply lookup_weaken; [done|]. by eapply step_mono. }
    destruct (IH Hk1) as (Ht2 & Hk2 & Hr2).
    split; [by rewrite translations_of_app, Ht1, Ht2|]. split; [done|].
    intros r [Hr|Hr]%elem_of_app; eauto.
Qed.




(** A translation the service returned during a pass is in the cache at
    the end of the pass. *)
Lemma steps_recorded words cache w cache' items evs lines k t :
  steps words cache w cache' items evs lines ->
  Translate k (Returns t) ∈ evs -> cache' !! k = Some t.
Proof.
  induction 1 as [|word words cache w c1 i1 e1 l1 c2 i2 e2 l2 Hstep Hrest IH];
    intros Hin; [by apply elem_of_nil in Hin|].
  apply elem_of_app in Hin as [Hin|Hin]; [|by apply IH].
  assert (c1 !! k = Some t) as Hk.
  { destruct Hstep as [He|Hne Hc|cached Hc Hl|t' Hc Hl Ht|e Hc Hl Ht];
      repeat (apply elem_of_cons in Hin as [Hin|Hin]; try discriminate);
      try (by apply elem_of_nil in Hin).
    injection Hin as -> ->. apply lookup_insert_eq. }
  by destruct (steps_cached _ _ _ _ _ _ _ k t Hrest Hk) as (_ & ? & _).
Qed.

(** ** Cache store *)

Lemma load_world w : (load_translation_cache w).2 = w.
Proof.
  unfold load_translation_cache.
  destruct (cache_file w) as [[| |d]|]; destruct (cache_readable w); done.
Qed.

Lemma load_pair w : load_translation_cache w = ((load_translation_cache w).1, w).
Proof. rewrite <- (load_world w) at 3. by destruct (load_translation_cache w). Qed.

Lemma load_log evs lines w :
  (load_translation_cache (log evs lines w)).1 = (load_translation_cache w).1.
Proof.
  unfold load_translation_cache, log. simpl.
  destruct (cache_file w) as [[| |d]|]; destruct (cache_readable w); done.
Qed.


Lemma save_trace cache w : trace (save_translation_cache cache w).2 = trace w.
Proof.
  unfold save_translation_cache. destruct (cache_write_error w); [|done].
  unfold print. simpl. done.
Qed.

Lemma save_stdout cache w :
  exists warning, stdout (save_translation_cache cache w).2 = stdout w ++ warning.
Proof.
  unfold save_translation_cache. destruct (cache_write_error w).
  - eexists. unfold print. simpl. done.
  - exists []. simpl. by rewrite app_nil_r.
Qed.


(** ** [process_text] *)

Lemma process_text_raises text w e :
  (load_translation_cache w).1 = Raise e -> process_text text w = (Raise e, w).
Proof.
  intros Hl. unfold process_text, mbind, M_bind.
  rewrite load_pair, Hl. done.
Qed.

Lemma process_text_of_steps text w cache cache' items evs lines :
  (load_translation_cache w).1 = Ok cache ->
  steps (jieba_cut text) cache (log [Cut text] [] w) cache' items evs lines ->
  process_text text w
  = (Ok items, (save_translation_cache cache' (log (Cut text :: evs) lines w)).2).
Proof.
  intros Hl Hsteps. unfold process_text, mbind, M_bind.
  rewrite load_pair, Hl. unfold segment_text, mbind, M_bind, mret, M_ret.
  rewrite emit_log.
  rewrite (process_words_of_steps _ _ _ _ _ _ _ _ Hsteps), log_log.
  simpl. by destruct (save_translation_cache _ _).
Qed.

(** [process_text] returns a list whenever the cache could be loaded. *)
Lemma process_text_inv text w results w' :
  process_text text w = (Ok results, w') ->
  exists cache cache' evs lines,
    (load_translation_cache w).1 = Ok cache /\
    steps (jieba_cut text) cache (log [Cut text] [] w) cache' results evs lines /\
    w' = (save_translation_cache cache' (log (Cut text :: evs) lines w)).2.
Proof.
  intros Hrun.
  destruct (load_translation_cache w).1 as [cache|e] eqn:Hl.
  2:{ rewrite (process_text_raises _ _ _ Hl) in Hrun. discriminate. }
  destruct (steps_total (jieba_cut text) cache (log [Cut text] [] w))
    as (cache' & items & evs & lines & Hsteps).
  rewrite (process_text_of_steps _ _ _ _ _ _ _ Hl Hsteps) in Hrun.
  injection Hrun as <- <-. by exists cache, cache', evs, lines.
Qed.

Lemma process_text_unfold text w cache :
  (load_translation_cache w).1 = Ok cache ->
  process_text text w
  = let '((cache', results), w1) :=
        process_words (jieba_cut text) (cache, []) (log [Cut text] [] w) in
    (Ok results, (save_translation_cache cache' w1).2).
Proof.
  intros Hl.
  destruct (process_words_steps (jieba_cut text) cache [] (log [Cut text] [] w))
    as (c & i & e & l & Hsteps & ->).
  rewrite (process_text_of_steps _ _ _ _ _ _ _ Hl Hsteps). by rewrite log_log.
Qed.

(** * The claims *)

(** C8: a token without ideograph is passed through: its record repeats the
    stripped token as transcription and gloss, has level 0 and no
    breakdown, and the turn leaves the world as it was: no collaborator is
    called, nothing is printed, the cache is the same. *)
Theorem non_chinese_passthrough word cache results w :
  strip word <> [] -> is_chinese (strip word) = false ->
  exists r,
    process_word word (cache, results) w = ((cache, results ++ [r]), w) /\
    Item.chinese r = strip word /\ Item.pinyin r = strip word /\
    Item.dutch r = strip word /\ Item.hsk_level r = 0 /\
    Item.breakdown r = None /\ Item.is_chinese r = false.
Proof.
  intros Hne Hc. exists (plain_item (strip word)).
  split; [by apply process_word_plain|done].
Qed.

(** C10: the surfaces of the records [process_text] returns are the tokens
    of the segmenter, stripped, those that are empty once stripped left out,
    in order; so no surface is empty, none starts or ends with
    whitespace. *)
Theorem surfaces_are_stripped_tokens text w results w' :
  process_text text w = (Ok results, w') ->
  map Item.chinese results = filter (fun s => s <> []) (map strip (jieba_cut text)) /\
  Forall (fun r =>
            Item.chinese r <> [] /\
            (forall c rest, Item.chinese r = c :: rest -> isspace c = false) /\
            (forall c, last (Item.chinese r) = Some c -> isspace c = false)) results.
Proof.
  intros (cache & cache' & evs & lines & _ & Hsteps & _)%process_text_inv.
  pose proof (steps_surfaces _ _ _ _ _ _ _ Hsteps) as Hs.
  split; [done|].
  apply Forall_forall. intros r Hr.
  assert (Item.chinese r ∈ filter (fun s => s <> []) (map strip (jieba_cut text)))
    as Hin by (rewrite <- Hs; by apply list_elem_of_fmap_2).
  apply list_elem_of_filter in Hin as [Hne Hin].
  apply list_elem_of_fmap in Hin as (token & Heq & _).
  rewrite Heq in *.
  split; [done|]. split.
  - intros c rest. apply strip_no_leading.
  - intros c. apply strip_no_trailing.
Qed.

(** C7: in the loop of a run the cache only grows: a key that is in the
    cache after some of the words keeps its value whatever words follow. *)
Theorem cache_only_grows before after cache results w k v :
  (process_words before (cache, results) w).1.1 !! k = Some v ->
  (process_words (before ++ after) (cache, results) w).1.1 !! k = Some v.
Proof.
  rewrite process_words_app.
  destruct (process_words before (cache, results) w) as [[c1 r1] w1]. simpl.
  destruct (process_words_steps after c1 r1 w1)
    as (c2 & i2 & e2 & l2 & Hsteps & ->). simpl.
  intros Hk. eapply lookup_weaken; [done|]. by eapply steps_mono.
Qed.

(** C3: when the translation service raises for a word that is not in the
    cache, the turn of the loop still returns: it appends a record whose
    gloss is ["?"] and that is marked Chinese, leaves the cache as it was and
    prints a warning in which the word appears; [process_text] returns a
    list with a record for every token that is not empty once stripped, in
    order, the record of the failed word among them. *)
Theorem failed_translation_is_contained
    text w cache before word after cache0 results0 w0 e :
  (load_translation_cache w).1 = Ok cache ->
  jieba_cut text = before ++ word :: after ->
  process_words before (cache, []) (log [Cut text] [] w) = ((cache0, results0), w0) ->
  is_chinese (strip word) = true ->
  cache0 !! strip word = None ->
  translate (ncalls (trace w0)) (strip word) = Throws e ->
  let r := chinese_item (strip word) (u "?") in
  process_word word (cache0, results0) w0
  = ((cache0, results0 ++ [r]),
     log [Pinyin (strip word); Translate (strip word) (Throws e);
          HskLevel (strip word); Breakdown (strip word)]
         [translate_warning (strip word) e] w0) /\
  Item.dutch r = u "?" /\ Item.is_chinese r = true /\
  (exists pre post, translate_warning (strip word) e = pre ++ strip word ++ post) /\
  exists results w',
    process_text text w = (Ok results, w') /\
    map Item.chinese results
    = filter (fun s => s <> []) (map strip (jieba_cut text)) /\
    results !! length results0 = Some r /\
    translate_warning (strip word) e ∈ stdout w'.
Proof.
  intros Hl Hcut Hbefore Hc Hmiss Hthrow r.
  assert (process_word word (cache0, results0) w0
          = ((cache0, results0 ++ [r]),
             log [Pinyin (strip word); Translate (strip word) (Throws e);
                  HskLevel (strip word); Breakdown (strip word)]
                 [translate_warning (strip word) e] w0)) as Hturn.
  { by rewrite process_word_miss, Hthrow. }
  split; [exact Hturn|]. split; [done|]. split; [done|].
  split; [by eexists _, _|].
  rewrite (process_text_unfold _ _ _ Hl).
  destruct (process_words_steps (jieba_cut text) cache [] (log [Cut text] [] w))
    as (c & items & evs & lines & Hsteps & Hall).
  assert (map Item.chinese items
          = filter (fun s => s <> []) (map strip (jieba_cut text))) as Hsurf
    by (by eapply steps_surfaces).
  clear Hsteps. rewrite Hcut in Hall |- *.
  rewrite process_words_app, Hbefore, process_words_cons, Hturn in Hall |- *.
  destruct (process_words_steps after cache0 (results0 ++ [r])
              (log [Pinyin (strip word); Translate (strip word) (Throws e);
                    HskLevel (strip word); Breakdown (strip word)]
                   [translate_warning (strip word) e] w0))
    as (c2 & i2 & e2 & l2 & _ & Hrest).
  rewrite Hrest in Hall |- *. injection Hall as _ Hitems _.
  simpl in Hitems. eexists _, _. split; [done|].
  split; [by rewrite Hitems, Hsurf, Hcut|]. split.
  - rewrite <- app_assoc. by rewrite lookup_app_r, Nat.sub_diag by lia.
  - destruct (save_stdout c2
                (log e2 l2 (log [Pinyin (strip word); Translate (strip word) (Throws e);
                                 HskLevel (strip word); Breakdown (strip word)]
                                [translate_warning (strip word) e] w0)))
      as (tail & ->).
    simpl. rewrite !elem_of_app, list_elem_of_singleton. auto.
Qed.






(** C5: [main] stops on an empty input.  When [input.txt] holds only
    whitespace, [main] prints that the file is empty and leaves with
    [sys.exit(1)]; when its bytes cannot be decoded, the
    [UnicodeDecodeError] leaves [main].  In both cases the world is the one
    [main] found with these lines printed: no collaborator was called, the
    cache file and the output file were not touched. *)
Theorem main_stops_on_empty_input w :
  (forall raw,
      input_file w = Some (Utf8Text raw) -> strip raw = [] ->
      main w = (Raise (SystemExit 1),
                log [] [u "üìñ Lezen van 'input.txt'...";
                        u "‚ùå Het invoerbestand is leeg. Voeg Chinese tekst toe aan input.txt"] w)
      /\ trace (main w).2 = trace w
      /\ cache_file (main w).2 = cache_file w
      /\ output_file (main w).2 = output_file w) /\
  (input_file w = Some Undecodable ->
      main w = (Raise UnicodeDecodeError, log [] [u "üìñ Lezen van 'input.txt'..."] w)
      /\ trace (main w).2 = trace w
      /\ cache_file (main w).2 = cache_file w
      /\ output_file (main w).2 = output_file w).
Proof.
  split.
  - intros raw Hin Hempty.
    assert (main w = (Raise (SystemExit 1),
                log [] [u "üìñ Lezen van 'input.txt'...";
                        u "‚ùå Het invoerbestand is leeg. Voeg Chinese tekst toe aan input.txt"] w))
      as ->.
    { unfold main, ensure_input, read_input, mbind, M_bind, mret, M_ret.
      rewrite Hin. rewrite print_log. cbn [input_file log read_text].
      rewrite Hin. cbn [read_text]. cbv zeta. rewrite Hempty.
      cbn [truthy negb]. rewrite print_log, log_log. done. }
    split; [done|]. cbn [snd log trace cache_file output_file].
    by rewrite app_nil_r.
  - intros Hin.
    assert (main w = (Raise UnicodeDecodeError,
                      log [] [u "üìñ Lezen van 'input.txt'..."] w)) as ->.
    { unfold main, ensure_input, read_input, mbind, M_bind, mret, M_ret.
      rewrite Hin. rewrite print_log. cbn [input_file log read_text].
      by rewrite Hin. }
    split; [done|]. cbn [snd log trace cache_file output_file].
    by rewrite app_nil_r.
Qed.

(** * Further properties of the pipeline *)

(** ** What the loop depends on *)

(** A turn reads the world only to number the call to the service. *)
Lemma step_frame word cache w w2 cache' items evs lines :
  step word cache w cache' items evs lines ->
  ncalls (trace w2) = ncalls (trace w) ->
  step word cache w2 cache' items evs lines.
Proof.
  intros [He|Hne Hc|cached Hc Hl|t Hc Hl Ht|e Hc Hl Ht] Hn.
  - by apply step_skip.
  - by apply step_plain.
  - by apply step_hit.
  - apply step_translated; [done|done|]. by rewrite Hn.
  - apply step_failed; [done|done|]. by rewrite Hn.
Qed.

Lemma steps_frame words cache w w2 cache' items evs lines :
  steps words cache w cache' items evs lines ->
  ncalls (trace w2) = ncalls (trace w) ->
  steps words cache w2 cache' items evs lines.
Proof.
  intros Hsteps. revert w2.
  induction Hsteps as [|word words cache w c1 i1 e1 l1 c2 i2 e2 l2 Hstep _ IH];
    intros w2 Hn; [constructor|].
  econstructor; [by eapply step_frame|].
  apply IH. unfold log. cbn [trace]. rewrite !ncalls_app. lia.
Qed.

(** ** The records *)

Lemma step_records word cache w cache' items evs lines r :
  step word cache w cache' items evs lines -> r ∈ items ->
  Item.chinese r <> [] /\
  Item.is_chinese r = is_chinese (Item.chinese r) /\
  r = (if Item.is_chinese r
       then chinese_item (Item.chinese r) (Item.dutch r)
       else plain_item (Item.chinese r)).
Proof.
  intros [He|Hne Hc|cached Hc Hl|t Hc Hl Ht|e Hc Hl Ht] Hr;
    try (by apply elem_of_nil in Hr);
    apply list_elem_of_singleton in Hr as ->; simpl;
    (split; [|done]); try done; intros E; by rewrite E in Hc.
Qed.

Lemma steps_records words cache w cache' items evs lines r :
  steps words cache w cache' items evs lines -> r ∈ items ->
  Item.chinese r <> [] /\
  Item.is_chinese r = is_chinese (Item.chinese r) /\
  r = (if Item.is_chinese r
       then chinese_item (Item.chinese r) (Item.dutch r)
       else plain_item (Item.chinese r)).
Proof.
  induction 1 as [|word words cache w c1 i1 e1 l1 c2 i2 e2 l2 Hstep _ IH];
    intros Hr; [by apply elem_of_nil in Hr|].
  apply elem_of_app in Hr as [Hr|Hr]; [by eapply step_records|by apply IH].
Qed.

(** ** Where a gloss comes from *)

Lemma steps_gloss words cache w cache' items evs lines r :
  steps words cache w cache' items evs lines ->
  r ∈ items -> Item.is_chinese r = true ->
  Item.dutch r = u "?" \/ cache' !! Item.chinese r = Some (Item.dutch r).
Proof.
  induction 1 as [|word words cache w c1 i1 e1 l1 c2 i2 e2 l2 Hstep Hrest IH];
    intros Hr Hflag; [by apply elem_of_nil in Hr|].
  apply elem_of_app in Hr as [Hr|Hr]; [|by apply IH].
  pose proof (steps_mono _ _ _ _ _ _ _ Hrest) as Hmono.
  destruct Hstep as [He|Hne Hc|cached Hc Hl|t Hc Hl Ht|e Hc Hl Ht];
    try (by apply elem_of_nil in Hr);
    apply list_elem_of_singleton in Hr as ->; simpl in *.
  - discriminate.
  - right. by eapply lookup_weaken.
  - right. eapply lookup_weaken; [|done]. apply lookup_insert_eq.
  - by left.
Qed.

(** ** Which words reach the translation service *)

Lemma steps_calls words cache w cache' items evs lines k o :
  steps words cache w cache' items evs lines ->
  Translate k o ∈ evs ->
  is_chinese k = true /\ cache !! k = None /\ k ∈ map strip words.
Proof.
  induction 1 as [|word words cache w c1 i1 e1 l1 c2 i2 e2 l2 Hstep Hrest IH];
    intros Hin; [by apply elem_of_nil in Hin|].
  apply elem_of_app in Hin as [Hin|Hin].
  - destruct Hstep as [He|Hne Hc|cached Hc Hl|t Hc Hl Ht|e Hc Hl Ht];
      repeat (apply elem_of_cons in Hin as [Hin|Hin]; try discriminate);
      try (by apply elem_of_nil in Hin);
      injection Hin as -> _; (split; [done|]); (split; [done|]); left.
  - destruct (IH Hin) as (Hc & Hnone & Htok).
    split; [done|]. split; [|by right].
    destruct (cache !! k) as [v|] eqn:Hk; [|done].
    assert (c1 !! k = Some v) as Hk1.
    { eapply lookup_weaken; [done|]. by eapply step_mono. }
    congruence.
Qed.

(** ** What the final cache holds *)

Lemma steps_cache_origin words cache w cache' items evs lines k v :
  steps words cache w cache' items evs lines ->
  cache' !! k = Some v ->
  cache !! k = Some v \/ Translate k (Returns v) ∈ evs.
Proof.
  induction 1 as [|word words cache w c1 i1 e1 l1 c2 i2 e2 l2 Hstep Hrest IH];
    intros Hk; [by left|].
  destruct (IH Hk) as [Hk1|Hin]; [|right; apply elem_of_app; by right].
  destruct Hstep as [He|Hne Hc|cached Hc Hl|t Hc Hl Ht|e Hc Hl Ht];
    try (by left).
  destruct (decide (strip word = k)) as [<-|Hne].
  - rewrite lookup_insert_eq in Hk1. injection Hk1 as ->.
    right. apply elem_of_app. left. right. left.
  - rewrite lookup_insert_ne in Hk1 by done. by left.
Qed.

(** ** What the loop prints and whom it calls *)

Lemma warnings_of_app evs1 evs2 :
  warnings_of (evs1 ++ evs2) = warnings_of evs1 ++ warnings_of evs2.
Proof. unfold warnings_of. apply flat_map_app. Qed.

Lemma steps_warnings words cache w cache' items evs lines :
  steps words cache w cache' items evs lines -> lines = warnings_of evs.
Proof.
  induction 1 as [|word words cache w c1 i1 e1 l1 c2 i2 e2 l2 Hstep _ IH]; [done|].
  rewrite warnings_of_app, <- IH. f_equal.
  by destruct Hstep.
Qed.

Lemma chinese_words_app l1 l2 :
  chinese_words (l1 ++ l2) = chinese_words l1 ++ chinese_words l2.
Proof. unfold chinese_words. apply List.filter_app. Qed.

Lemma steps_collaborators words cache w cache' items evs lines :
  steps words cache w cache' items evs lines ->
  pinyin_calls evs = map Item.chinese (chinese_words items) /\
  hsk_calls evs = map Item.chinese (chinese_words items) /\
  breakdown_calls evs = map Item.chinese (chinese_words items).
Proof.
  induction 1 as [|word words cache w c1 i1 e1 l1 c2 i2 e2 l2 Hstep _ IH]; [done|].
  destruct IH as (IH1 & IH2 & IH3).
  unfold pinyin_calls, hsk_calls, breakdown_calls in *.
  rewrite !flat_map_app, chinese_words_app, map_app, IH1, IH2, IH3.
  by destruct Hstep.
Qed.

(** The service receives at most one call per Chinese record. *)
Lemma steps_calls_bound words cache w cache' items evs lines :
  steps words cache w cache' items evs lines ->
  (ncalls evs <= length (chinese_words items))%nat.
Proof.
  induction 1 as [|word words cache w c1 i1 e1 l1 c2 i2 e2 l2 Hstep _ IH];
    [done|].
  rewrite ncalls_app, chinese_words_app, length_app.
  assert (ncalls e1 <= length (chinese_words i1))%nat; [|lia].
  destruct Hstep; unfold ncalls; simpl; lia.
Qed.

(** ** How many calls a pass makes *)

Lemma first_occurrences_filter (Q : pystr -> Prop) `{!forall x, Decision (Q x)} l :
  first_occurrences (filter Q l) = filter Q (first_occurrences l).
Proof.
  induction l as [|x l IH]; [done|].
  cbn [first_occurrences]. destruct (decide (Q x)) as [Hx|Hx].
  - rewrite !filter_cons_True by done. cbn [first_occurrences].
    rewrite IH, !list_filter_filter. f_equal.
    apply list_filter_iff. tauto.
  - rewrite !filter_cons_False by done.
    rewrite IH, list_filter_filter. apply list_filter_iff.
    intros y. split; [|tauto]. intros Hy. split; [done|]. by intros ->.
Qed.

Lemma new_words_skip cache token tokens :
  ~ (is_chinese token = true /\ cache !! token = None) ->
  new_words cache (token :: tokens) = new_words cache tokens.
Proof. intros Hn. unfold new_words. by rewrite filter_cons_False. Qed.

Lemma new_words_insert cache token translation tokens :
  is_chinese token = true -> cache !! token = None ->
  length (new_words cache (token :: tokens))
  = S (length (new_words (<[token := translation]> cache) tokens)).
Proof.
  intros Hc Hnone. unfold new_words.
  rewrite filter_cons_True by done. cbn [first_occurrences length]. f_equal.
  rewrite <- first_occurrences_filter, list_filter_filter. do 2 f_equal.
  apply list_filter_iff. intros s.
  destruct (decide (token = s)) as [<-|Hne].
  - rewrite lookup_insert_eq. split; [by intros [? _]|intros (_ & [=])].
  - rewrite lookup_insert_ne by done. split; [tauto|].
    intros ?. split; [congruence|done].
Qed.

(** When no call fails, a pass calls the service once for each distinct
    Chinese word that the cache did not hold. *)
Lemma steps_call_count words cache w cache' items evs lines :
  steps words cache w cache' items evs lines ->
  List.filter is_failure evs = [] ->
  ncalls evs = length (new_words cache (map strip words)).
Proof.
  induction 1 as [|word words cache w c1 i1 e1 l1 c2 i2 e2 l2 Hstep _ IH];
    intros Hok; [done|].
  rewrite List.filter_app in Hok. apply app_eq_nil in Hok as [Hok1 Hok2].
  rewrite ncalls_app, (IH Hok2). cbn [map].
  destruct Hstep as [He|Hne Hc|cached Hc Hl|t Hc Hl Ht|e Hc Hl Ht].
  - rewrite new_words_skip; [done|]. rewrite He. by intros [[=] _].
  - rewrite new_words_skip; [done|]. rewrite Hc. by intros [[=] _].
  - rewrite new_words_skip; [done|]. rewrite Hl. by intros [_ [=]].
  - by rewrite (new_words_insert _ _ t).
  - discriminate.
Qed.

(** ** One run of [process_text], in full *)

(** What a run that returns leaves behind: the calls it made, the lines it
    printed and the cache file. *)
Lemma process_text_run text w results w' :
  process_text text w = (Ok results, w') ->
  exists cache cache' evs,
    (load_translation_cache w).1 = Ok cache /\
    steps (jieba_cut text) cache (log [Cut text] [] w) cache' results evs
      (warnings_of evs) /\
    trace w' = trace w ++ Cut text :: evs /\
    stdout w' = stdout w ++ warnings_of evs ++ save_warning w /\
    cache_file w' = match cache_write_error w with
                    | Some _ => cache_file w
                    | None => Some (JsonObject cache')
                    end /\
    cache_readable w' = cache_readable w /\
    cache_write_error w' = cache_write_error w /\
    input_file w' = input_file w /\
    dutch_file w' = dutch_file w /\
    output_file w' = output_file w.
Proof.
  intros (cache & cache' & evs & lines & Hl & Hsteps & ->)%process_text_inv.
  pose proof (steps_warnings _ _ _ _ _ _ _ Hsteps) as ->.
  exists cache, cache', evs. split; [done|]. split; [done|].
  unfold save_translation_cache, save_warning.
  cbv beta iota delta [log print cache_write_error cache_file cache_readable
                       input_file dutch_file output_file trace stdout snd].
  destruct w as [cf cr [e|] inp dut out tr so];
    cbv beta iota delta [log print cache_write_error cache_file cache_readable
                         input_file dutch_file output_file trace stdout snd];
    rewrite ?app_nil_r, <- ?app_assoc; repeat split; reflexivity.
Qed.

Lemma new_calls_drop (w w' : world) evs :
  trace w' = trace w ++ evs -> drop (length (trace w)) (trace w') = evs.
Proof. intros ->. by rewrite drop_app_length. Qed.

(** X1: every record [process_text] returns is fixed by its surface and
    its gloss: its flag is what [is_chinese] answers on the surface; a record
    that is not Chinese repeats the surface with level 0 and no breakdown; a
    Chinese record carries the transcription, level, frequency and breakdown
    the collaborators give for the surface. *)
Theorem records_follow_classifier text w results w' :
  process_text text w = (Ok results, w') ->
  Forall (fun r =>
            Item.is_chinese r = is_chinese (Item.chinese r) /\
            r = (if Item.is_chinese r
                 then chinese_item (Item.chinese r) (Item.dutch r)
                 else plain_item (Item.chinese r))) results.
Proof.
  intros (cache & cache' & evs & _ & Hsteps & _)%process_text_run.
  apply Forall_forall. intros r Hr.
  by destruct (steps_records _ _ _ _ _ _ _ r Hsteps Hr) as (_ & ? & ?).
Qed.

(** X2: after a run whose save succeeds, the gloss of every Chinese record
    is the sentinel ["?"] or the text the saved cache file holds for the
    surface. *)
Theorem gloss_is_sentinel_or_saved text w results w' :
  process_text text w = (Ok results, w') ->
  cache_write_error w = None ->
  exists saved,
    cache_file w' = Some (JsonObject saved) /\
    Forall (fun r => Item.is_chinese r = true ->
                     Item.dutch r = u "?" \/
                     saved !! Item.chinese r = Some (Item.dutch r)) results.
Proof.
  intros (cache & cache' & evs & _ & Hsteps & _ & _ & Hfile & _)%process_text_run
    Hwrite.
  rewrite Hwrite in Hfile. exists cache'. split; [done|].
  apply Forall_forall. intros r Hr Hflag. by eapply steps_gloss.
Qed.

(** X3: the translation service is called only for words that are Chinese,
    that the loaded cache does not hold and that are the surface of a
    record of the result. *)
Theorem calls_only_for_new_chinese_words text w cache results w' k o :
  process_text text w = (Ok results, w') ->
  (load_translation_cache w).1 = Ok cache ->
  Translate k o ∈ new_calls w w' ->
  is_chinese k = true /\ cache !! k = None /\ k ∈ map Item.chinese results.
Proof.
  intros (cache0 & cache' & evs & Hl & Hsteps & Htr & _)%process_text_run Hl'.
  rewrite Hl in Hl'. injection Hl' as ->.
  unfold new_calls. rewrite (new_calls_drop _ _ _ Htr).
  intros [?|Hin]%elem_of_cons; [discriminate|].
  destruct (steps_calls _ _ _ _ _ _ _ k o Hsteps Hin) as (Hc & Hnone & Htok).
  split; [done|]. split; [done|].
  rewrite (steps_surfaces _ _ _ _ _ _ _ Hsteps).
  apply list_elem_of_filter. split; [|exact Htok].
  intros E. by rewrite E in Hc.
Qed.

(** X4: a run calls the translation service at most once per Chinese
    record; when no call fails, it calls it exactly once per distinct
    Chinese word that the loaded cache does not hold. *)
Theorem call_count text w cache results w' :
  process_text text w = (Ok results, w') ->
  (load_translation_cache w).1 = Ok cache ->
  (ncalls (new_calls w w') <= length (chinese_words results))%nat /\
  (List.filter is_failure (new_calls w w') = [] ->
   ncalls (new_calls w w')
   = length (new_words cache (map strip (jieba_cut text)))).
Proof.
  intros (cache0 & cache' & evs & Hl & Hsteps & Htr & _)%process_text_run Hl'.
  rewrite Hl in Hl'. injection Hl' as ->.
  unfold new_calls. rewrite (new_calls_drop _ _ _ Htr).
  change (Cut text :: evs) with ([Cut text] ++ evs).
  rewrite ncalls_app, List.filter_app.
  change (ncalls [Cut text]) with 0%nat. cbn [List.filter is_failure app Nat.add].
  split; [by eapply steps_calls_bound|by eapply steps_call_count].
Qed.

(** X5: the cache file a run saves holds the entries of the loaded cache,
    unchanged, and the translations the service returned during the run,
    and nothing else. *)
Theorem saved_cache_contents text w cache results w' :
  process_text text w = (Ok results, w') ->
  cache_write_error w = None ->
  (load_translation_cache w).1 = Ok cache ->
  exists saved,
    cache_file w' = Some (JsonObject saved) /\
    cache ⊆ saved /\
    forall k v, saved !! k = Some v <->
                cache !! k = Some v \/ Translate k (Returns v) ∈ new_calls w w'.
Proof.
  intros (cache0 & cache' & evs & Hl & Hsteps & Htr & _ & Hfile & _)%process_text_run
    Hwrite Hl'.
  rewrite Hl in Hl'. injection Hl' as ->. rewrite Hwrite in Hfile.
  pose proof (steps_mono _ _ _ _ _ _ _ Hsteps) as Hmono.
  exists cache'. split; [done|]. split; [done|].
  unfold new_calls. rewrite (new_calls_drop _ _ _ Htr).
  intros k v. split.
  - intros Hk. destruct (steps_cache_origin _ _ _ _ _ _ _ k v Hsteps Hk);
      [by left|right; by right].
  - intros [Hk|Hin]; [by eapply lookup_weaken|].
    apply elem_of_cons in Hin as [?|Hin]; [discriminate|].
    by eapply steps_recorded.
Qed.

(** X6: a run that loaded its cache as a [dict] of strings and returns
    prints one warning for each call the translation service answered with
    an exception, in the order of the calls, then the warning of a failed
    save if the save fails with an [IOError], and nothing else. *)
Theorem printed_lines text w cache results w' :
  process_text text w = (Ok results, w') ->
  (load_translation_cache w).1 = Ok cache ->
  new_lines w w' = warnings_of (new_calls w w') ++ save_warning w.
Proof.
  intros (cache0 & cache' & evs & _ & _ & Htr & Hout & _)%process_text_run _.
  unfold new_lines, new_calls. rewrite (new_calls_drop _ _ _ Htr), Hout.
  by rewrite drop_app_length.
Qed.

(** X7: a run calls the segmenter once, on the whole text, and calls
    [get_pinyin], [get_hsk_level] and [get_character_breakdown] once for
    each Chinese record, on its surface, in the order of the records. *)
Theorem collaborators_called_once_per_record text w results w' :
  process_text text w = (Ok results, w') ->
  cut_calls (new_calls w w') = [text] /\
  pinyin_calls (new_calls w w') = map Item.chinese (chinese_words results) /\
  hsk_calls (new_calls w w') = map Item.chinese (chinese_words results) /\
  breakdown_calls (new_calls w w') = map Item.chinese (chinese_words results).
Proof.
  intros (cache0 & cache' & evs & _ & Hsteps & Htr & _)%process_text_run.
  unfold new_calls. rewrite (new_calls_drop _ _ _ Htr).
  destruct (steps_collaborators _ _ _ _ _ _ _ Hsteps) as (H1 & H2 & H3).
  split; [|done].
  unfold cut_calls. cbn [flat_map app]. f_equal.
  clear -Hsteps. induction Hsteps as [|? ? ? ? ? ? ? ? ? ? ? ? Hstep _ IH]; [done|].
  rewrite flat_map_app, IH. by destruct Hstep.
Qed.

(** X8: the list [process_text] returns, or the exception it raises,
    depends on the world only through the cache file, whether it can be
    read, and the answers of the translation service: what was printed, the
    other files and a save that fails do not change it. *)
Theorem results_depend_on_cache_and_service text w1 w2 :
  cache_file w1 = cache_file w2 ->
  cache_readable w1 = cache_readable w2 ->
  ncalls (trace w1) = ncalls (trace w2) ->
  (process_text text w1).1 = (process_text text w2).1.
Proof.
  intros Hfile Hread Hn.
  assert ((load_translation_cache w1).1 = (load_translation_cache w2).1) as Hload.
  { unfold load_translation_cache. rewrite Hfile, Hread.
    destruct (cache_file w2) as [[| |d]|]; destruct (cache_readable w2); done. }
  destruct (load_translation_cache w2).1 as [cache|e] eqn:Hl2.
  - destruct (steps_total (jieba_cut text) cache (log [Cut text] [] w1))
      as (c & i & e & l & Hsteps).
    rewrite (process_text_of_steps _ _ _ _ _ _ _ Hload Hsteps).
    assert (steps (jieba_cut text) cache (log [Cut text] [] w2) c i e l) as Hsteps2.
    { eapply steps_frame; [done|]. unfold log. cbn [trace].
      rewrite !ncalls_app. lia. }
    by rewrite (process_text_of_steps _ _ _ _ _ _ _ Hl2 Hsteps2).
  - by rewrite (process_text_raises _ _ _ Hload), (process_text_raises _ _ _ Hl2).
Qed.

(** X9: a save that fails with an [IOError] changes nothing of a run but
    one line: when the run whose save succeeds returns a list, the run
    whose save fails returns the same list and makes the same calls, and
    what it prints is what the other prints, followed by the warning of
    the save. *)
Theorem failed_save_only_adds_warning text w e results w1 :
  cache_write_error w = Some e ->
  process_text text (with_write_error None w) = (Ok results, w1) ->
  exists w2,
    process_text text w = (Ok results, w2) /\
    trace w2 = trace w1 /\
    stdout w2 = stdout w1 ++ [u "Warning: Could not save translation cache: " ++ e].
Proof.
  intros Hwrite. set (w0 := with_write_error None w). intros Hrun.
  assert ((load_translation_cache w0).1 = (load_translation_cache w).1) as Hload.
  { unfold load_translation_cache, w0, with_write_error. cbn [cache_file cache_readable].
    destruct (cache_file w) as [[| |d]|]; destruct (cache_readable w); done. }
  destruct (load_translation_cache w).1 as [cache|ex] eqn:Hl.
  - destruct (steps_total (jieba_cut text) cache (log [Cut text] [] w))
      as (c & i & ev & l & Hsteps).
    assert (steps (jieba_cut text) cache (log [Cut text] [] w0) c i ev l) as Hsteps0
      by (by eapply steps_frame).
    rewrite (process_text_of_steps _ _ _ _ _ _ _ Hload Hsteps0) in Hrun.
    rewrite (process_text_of_steps _ _ _ _ _ _ _ Hl Hsteps).
    injection Hrun as <- <-. eexists. split; [done|].
    rewrite !save_trace. split; [done|].
    unfold save_translation_cache, log, w0, with_write_error.
    cbn [cache_write_error]. rewrite Hwrite. unfold print.
    cbn [snd stdout]. done.
  - by rewrite (process_text_raises _ _ _ Hload) in Hrun.
Qed.

(** In this model of the cache file, where a file that [json.load] accepts
    holds a [dict] of strings, a run raises exactly when the file is there,
    can be opened and is not UTF-8. *)
Lemma process_text_raises_iff text w e w' :
  process_text text w = (Raise e, w') <->
  cache_file w = Some NotUtf8 /\ cache_readable w = true /\
  e = UnicodeDecodeError /\ w' = w.
Proof.
  split.
  - intros Hrun.
    destruct (load_translation_cache w).1 as [cache|e0] eqn:Hl.
    + destruct (steps_total (jieba_cut text) cache (log [Cut text] [] w))
        as (c & i & ev & l & Hsteps).
      rewrite (process_text_of_steps _ _ _ _ _ _ _ Hl Hsteps) in Hrun.
      discriminate.
    + rewrite (process_text_raises _ _ _ Hl) in Hrun. injection Hrun as <- <-.
      unfold load_translation_cache in Hl.
      destruct (cache_file w) as [[| |d]|]; destruct (cache_readable w);
        simpl in Hl; try discriminate.
      by injection Hl as <-.
  - intros (Hfile & Hread & -> & ->).
    apply process_text_raises. unfold load_translation_cache.
    by rewrite Hfile, Hread.
Qed.


(** ** [translate_word] on any word *)

Lemma lstrip_blank s : Forall (fun c => isspace c = true) s -> lstrip s = [].
Proof. induction 1 as [|c s Hc _ IH]; simpl; [done|]. by rewrite Hc. Qed.

Lemma strip_blank s : Forall (fun c => isspace c = true) s -> strip s = [].
Proof.
  intros Hs. unfold strip, rstrip.
  rewrite (lstrip_blank (reverse s)); [done|].
  apply Forall_forall. intros c Hc. rewrite elem_of_reverse in Hc.
  rewrite Forall_forall in Hs. by apply Hs.
Qed.

Lemma char_in_spec c s : char_in c s = true <-> c ∈ s.
Proof.
  unfold char_in. rewrite existsb_exists. split.
  - intros (x & Hx & ->%Z.eqb_eq). by apply list_elem_of_In.
  - intros Hc. exists c. split; [by apply list_elem_of_In|apply Z.eqb_refl].
Qed.

Lemma skipped_spec word :
  skipped word = true <->
  Forall (fun c => isspace c = true) word \/ Forall (fun c => c ∈ PUNCTUATION) word.
Proof.
  unfold skipped. rewrite orb_true_iff. split.
  - intros [Hblank|Hpunct].
    + left. destruct (strip word) as [|c r] eqn:E; [|done].
      apply Forall_forall. intros c Hc.
      destruct (isspace c) eqn:Hs; [done|].
      pose proof (strip_keeps word c Hc Hs) as Hin. rewrite E in Hin.
      by apply elem_of_nil in Hin.
    + right. apply Forall_forall. intros c Hc%list_elem_of_In.
      rewrite forallb_forall in Hpunct. by apply char_in_spec, Hpunct.
  - intros [Hblank|Hpunct].
    + left. by rewrite strip_blank.
    + right. apply forallb_forall. intros c Hc%list_elem_of_In.
      apply char_in_spec. rewrite Forall_forall in Hpunct. by apply Hpunct.
Qed.

(** X11: a word that is empty, made of whitespace only or made only of
    characters of the punctuation literal is returned as it is by
    [translate_word]: the service is not called, nothing is printed and the
    cache is neither read nor changed, whatever it holds for the word.  No
    character of the literal is an ideograph and no ideograph is
    whitespace, so a word with an ideograph is never such a word: the
    words [process_text] hands to [translate_word] always reach the cache
    lookup. *)
Theorem translate_word_skips_punctuation :
  (forall word cache w,
      Forall (fun c => isspace c = true) word \/
      Forall (fun c => c ∈ PUNCTUATION) word ->
      translate_word word cache w = ((word, cache), w)) /\
  (forall word,
      is_chinese word = true ->
      ~ (Forall (fun c => isspace c = true) word \/
         Forall (fun c => c ∈ PUNCTUATION) word)).
Proof.
  split.
  - intros word cache w Hskip%skipped_spec. unfold translate_word.
    unfold skipped in Hskip. by rewrite Hskip.
  - intros word Hc Hskip%skipped_spec. unfold skipped in Hskip.
    by rewrite (chinese_not_skipped word Hc) in Hskip.
Qed.

Lemma translate_word_not_skipped word cache w :
  skipped word = false ->
  translate_word word cache w =
    match cache !! word with
    | Some cached => ((cached, cache), w)
    | None =>
      match translate (ncalls (trace w)) word with
      | Returns translation =>
        ((translation, <[word := translation]> cache),
         log [Translate word (Returns translation)] [] w)
      | Throws e =>
        ((u "?", cache),
         log [Translate word (Throws e)] [translate_warning word e] w)
      end
    end.
Proof.
  intros Hskip. unfold translate_word. unfold skipped in Hskip. rewrite Hskip.
  destruct (cache !! word) as [cached|]; [done|].
  unfold translator_translate, mbind, M_bind, mret, M_ret.
  destruct (translate (ncalls (trace w)) word) as [t|e]; same_world.
Qed.

(** X12: for a word that is not skipped, [translate_word] touches no other
    key of the cache, and either it fails (the text returned is ["?"], the
    word was not in the cache and still is not) or the cache now holds the
    text returned for the word; in that case a second call on the cache and
    world it left returns the same text without calling the service. *)
Theorem translate_word_records_what_it_returns word cache w res cache' w' :
  skipped word = false ->
  translate_word word cache w = ((res, cache'), w') ->
  (forall k, k <> word -> cache' !! k = cache !! k) /\
  ((res = u "?" /\ cache !! word = None /\ cache' = cache) \/
   (cache' !! word = Some res /\
    translate_word word cache' w' = ((res, cache'), w'))).
Proof.
  intros Hskip. rewrite (translate_word_not_skipped _ _ _ Hskip).
  destruct (cache !! word) as [cached|] eqn:Hl.
  - intros [= <- <- <-]. split; [done|]. right. split; [done|].
    by rewrite (translate_word_not_skipped _ _ _ Hskip), Hl.
  - destruct (translate (ncalls (trace w)) word) as [t|e].
    + intros [= <- <- <-]. split.
      * intros k Hk. by rewrite lookup_insert_ne.
      * right. split; [apply lookup_insert_eq|].
        by rewrite (translate_word_not_skipped _ _ _ Hskip), lookup_insert_eq.
    + intros [= <- <- <-]. split; [done|]. by left.
Qed.

(** ** The classifier and [strip] *)

Lemma lstrip_subset s c : c ∈ lstrip s -> c ∈ s.
Proof.
  destruct (lstrip_split s) as [p Hp]. intros Hc. rewrite Hp.
  apply elem_of_app. by right.
Qed.

Lemma strip_subset s c : c ∈ strip s -> c ∈ s.
Proof.
  unfold strip, rstrip. intros Hc%lstrip_subset.
  rewrite elem_of_reverse in Hc. apply lstrip_subset in Hc.
  by rewrite elem_of_reverse in Hc.
Qed.

(** X13: stripping a token does not change what the classifier answers:
    [is_chinese] on the stripped word, as the loop of [process_text] asks
    it, is [is_chinese] on the token. *)
Theorem is_chinese_strip s : is_chinese (strip s) = is_chinese s.
Proof.
  destruct (is_chinese s) eqn:E.
  - apply is_chinese_elem in E as (c & Hc & Hr).
    apply is_chinese_elem. exists c. split; [|done].
    apply strip_keeps; [done|]. by apply ideograph_not_space.
  - destruct (is_chinese (strip s)) eqn:E'; [|done].
    apply is_chinese_elem in E' as (c & Hc%strip_subset & Hr).
    assert (is_chinese s = true) by (apply is_chinese_elem; eauto).
    congruence.
Qed.

(** ** [main] *)

Lemma quiet_refl w : quiet w w.
Proof. by repeat split. Qed.

Lemma quiet_trans w1 w2 w3 : quiet w1 w2 -> quiet w2 w3 -> quiet w1 w3.
Proof.
  unfold quiet. intros (?&?&?&?&?) (?&?&?&?&?). repeat split; congruence.
Qed.

Lemma quiet_log lines w : quiet w (log [] lines w).
Proof. unfold quiet, log. cbn [cache_file cache_readable cache_write_error
                               output_file trace]. by rewrite app_nil_r. Qed.

Lemma prints_only_print line : prints_only (print line).
Proof. exists [line]. intros w. apply print_log. Qed.

Lemma prints_only_ret : prints_only (mret tt).
Proof. exists []. intros w. unfold mret, M_ret. by rewrite log_nil. Qed.

Lemma prints_only_bind (m1 m2 : M unit) :
  prints_only m1 -> prints_only m2 -> prints_only (m1;; m2).
Proof.
  intros [l1 H1] [l2 H2]. exists (l1 ++ l2). intros w.
  unfold mbind, M_bind. by rewrite H1, H2, log_log.
Qed.

Lemma prints_only_preview words : prints_only (print_preview words).
Proof.
  induction words as [|word words IH]; cbn [print_preview].
  - apply prints_only_ret.
  - apply prints_only_bind; [apply prints_only_print|exact IH].
Qed.

Lemma prints_only_summary results : prints_only (print_summary results).
Proof.
  unfold print_summary. cbv zeta.
  repeat (apply prints_only_bind;
          [first [apply prints_only_print | apply prints_only_preview | idtac]|]).
  - case_bool_decide; [apply prints_only_print|apply prints_only_ret].
  - apply prints_only_print.
Qed.

Lemma read_dutch_spec w :
  (read_dutch w).1 = dutch_text_of (dutch_file w) /\
  quiet w (read_dutch w).2 /\
  input_file (read_dutch w).2 = input_file w.
Proof.
  unfold read_dutch, dutch_text_of, write_dutch, quiet, mbind, M_bind, mret, M_ret,
    print.
  destruct w as [cf cr we inp [[d|]|] out tr so];
    cbn [dutch_file read_text];
    [cbv zeta; destruct (truthy (strip d))| |];
    cbn [fst snd cache_file cache_readable cache_write_error output_file
         trace input_file dutch_file stdout];
    done.
Qed.

(** [process_text] in a world that differs by what was printed. *)
Lemma process_text_quiet text w w3 :
  quiet w w3 ->
  match process_text text w with
  | (Raise e, _) => process_text text w3 = (Raise e, w3)
  | (Ok results, w') =>
    exists w3',
      process_text text w3 = (Ok results, w3') /\
      cache_file w3' = cache_file w' /\ trace w3' = trace w' /\
      output_file w3' = output_file w3 /\ input_file w3' = input_file w3
  end.
Proof.
  intros (Hfile & Hread & Hwrite & Hout & Htr).
  assert ((load_translation_cache w3).1 = (load_translation_cache w).1) as Hload.
  { unfold load_translation_cache. rewrite Hfile, Hread.
    destruct (cache_file w) as [[| |d]|]; destruct (cache_readable w); done. }
  destruct (process_text text w) as [[results|e] w'] eqn:Hrun.
  - destruct (process_text_run _ _ _ _ Hrun)
      as (cache & cache' & evs & Hl & Hsteps & Htr' & _ & Hfile' & _).
    rewrite <- Hload in Hl.
    assert (steps (jieba_cut text) cache (log [Cut text] [] w3) cache' results evs
              (warnings_of evs)) as Hsteps3.
    { eapply steps_frame; [done|]. unfold log. cbn [trace]. by rewrite Htr. }
    pose proof (process_text_of_steps _ _ _ _ _ _ _ Hl Hsteps3) as Hrun3.
    eexists. split; [exact Hrun3|].
    destruct (process_text_run _ _ _ _ Hrun3)
      as (c & c' & evs3 & _ & _ & Htr3 & _ & Hfile3 & _ & _ & Hin3 & _ & Hout3).
    rewrite save_trace in *.
    split; [|split; [|done]].
    + unfold save_translation_cache at 1. rewrite Hfile'.
      unfold log. cbn [cache_write_error cache_file]. rewrite Hwrite.
      destruct (cache_write_error w); [|done]. unfold print.
      cbn [snd cache_file]. exact Hfile.
    + rewrite Htr'. unfold log. cbn [trace]. by rewrite Htr.
  - apply process_text_raises_iff in Hrun as (Hf & Hr & -> & ->).
    apply process_text_raises_iff. by rewrite Hfile, Hread.
Qed.

Lemma main_process_spec t w :
  match dutch_text_of (dutch_file w), process_text t w with
  | Raise e, _ =>
    (main_process t w).1 = Raise e /\ quiet w (main_process t w).2
  | Ok d, (Raise e, _) =>
    (main_process t w).1 = Raise e /\ quiet w (main_process t w).2
  | Ok d, (Ok results, w') =>
    (main_process t w).1 = Ok tt /\
    output_file (main_process t w).2 = Some (generate_html results t d) /\
    trace (main_process t w).2 = trace w' /\
    cache_file (main_process t w).2 = cache_file w'
  end /\
  input_file (main_process t w).2 = input_file w.
Proof.
  unfold main_process, mbind, M_bind, mret, M_ret.
  destruct (read_dutch_spec w) as (Hd & Hq & Hin).
  destruct (read_dutch w) as [d w2]. cbn [fst snd] in Hd, Hq, Hin.
  rewrite <- Hd. destruct d as [dt|e]; [|by split].
  rewrite !print_log.
  match goal with
  | |- context [process_text t (log ?a ?b ?c)] => set (w4 := log a b c)
  end.
  assert (quiet w w4) as Hq4.
  { eapply quiet_trans; [done|]. eapply quiet_trans; apply quiet_log. }
  assert (input_file w4 = input_file w) as Hin4 by done.
  pose proof (process_text_quiet t w w4 Hq4) as Hp.
  destruct (process_text t w) as [[results|e] w'].
  - destruct Hp as (w5 & Hrun & Hcf & Htr & Hout & Hin5). rewrite Hrun.
    destruct (prints_only_summary results) as [lines Hs].
    rewrite !print_log. unfold write_output. rewrite !print_log, Hs.
    cbn [fst snd log output_file trace cache_file input_file].
    rewrite !app_nil_r. repeat split; congruence.
  - rewrite Hp. split; [split; [done|exact Hq4]|exact Hin4].
Qed.

Lemma main_present w f :
  input_file w = Some f ->
  main w =
    match read_text (Some f) with
    | Raise e => (Raise e, log [] [u "üìñ Lezen van 'input.txt'..."] w)
    | Ok raw =>
      if negb (truthy (strip raw)) then
        (Raise (SystemExit 1),
         log [] [u "üìñ Lezen van 'input.txt'...";
                 u "‚ùå Het invoerbestand is leeg. Voeg Chinese tekst toe aan input.txt"] w)
      else main_process (strip raw) (log [] [u "üìñ Lezen van 'input.txt'..."] w)
    end.
Proof.
  intros Hin. unfold main, ensure_input, read_input, mbind, M_bind, mret, M_ret.
  rewrite Hin, print_log. cbn [input_file log]. rewrite Hin.
  destruct (read_text (Some f)) as [raw|e]; [|done]. cbv zeta.
  destruct (negb (truthy (strip raw))); [|done].
  by rewrite print_log, log_log.
Qed.

Lemma main_absent w :
  input_file w = None ->
  main w =
    main (log [] [u "üìù Voorbeeld bestand 'input.txt' aangemaakt.";
                  u "   Bewerk dit bestand met je Chinese tekst en voer het script opnieuw uit.";
                  []]
            (write_input sample_text w).2).
Proof.
  intros Hin. unfold main at 1 2. unfold ensure_input, mbind, M_bind.
  rewrite Hin. cbn [input_file log write_input snd].
  rewrite !print_log. unfold write_input. cbn [fst snd].
  rewrite !log_log. done.
Qed.

Lemma sample_text_not_blank : truthy (strip sample_text) = true.
Proof. vm_compute. reflexivity. Qed.


Lemma main_present_failure w f e :
  input_file w = Some f ->
  (main w).1 = Raise e ->
  quiet w (main w).2 /\ (e = SystemExit 1 \/ e = UnicodeDecodeError) /\
  (e = SystemExit 1 -> exists raw, f = Utf8Text raw /\ strip raw = []).
Proof.
  intros Hin. rewrite (main_present _ _ Hin).
  destruct f as [raw|]; cbn [read_text].
  - destruct (strip raw) as [|c r] eqn:E; cbn [truthy negb].
    + cbn [fst snd]. intros [= <-]. split; [apply quiet_log|].
      split; [by left|]. intros _. by exists raw.
    + set (w1 := log [] _ w).
      destruct (main_process_spec (c :: r) w1) as [Hspec _].
      destruct (dutch_text_of (dutch_file w1)) as [d|e1] eqn:Hd.
      * pose proof (process_text_raises_iff (c :: r) w1) as Hiff.
        destruct (process_text (c :: r) w1) as [[results|e2] w2].
        -- destruct Hspec as (-> & _). discriminate.
        -- destruct Hspec as (-> & Hq). intros [= <-].
           destruct (proj1 (Hiff e2 w2) eq_refl) as (_ & _ & -> & _).
           split; [eapply quiet_trans; [apply quiet_log|exact Hq]|].
           split; [by right|discriminate].
      * destruct Hspec as (-> & Hq). intros [= <-].
        assert (e1 = UnicodeDecodeError) as ->.
        { unfold dutch_text_of in Hd.
          destruct (dutch_file w1) as [[?|]|]; congruence. }
        split; [eapply quiet_trans; [apply quiet_log|exact Hq]|].
        split; [by right|discriminate].
  - cbn [fst snd]. intros [= <-]. split; [apply quiet_log|].
    split; [by right|discriminate].
Qed.

Lemma main_present_stops w raw :
  input_file w = Some (Utf8Text raw) -> strip raw <> [] ->
  dutch_file w = Some Undecodable \/
  (cache_file w = Some NotUtf8 /\ cache_readable w = true) ->
  (main w).1 = Raise UnicodeDecodeError /\ quiet w (main w).2.
Proof.
  intros Hin Hne Hcause. rewrite (main_present _ _ Hin). cbn [read_text].
  destruct (strip raw) as [|c r] eqn:E; [done|]. cbn [truthy negb].
  match goal with |- context [main_process _ ?x] => set (w1 := x) end.
  assert (quiet w w1) as Hq1 by apply quiet_log.
  destruct (main_process_spec (c :: r) w1) as [Hspec _].
  change (dutch_file w1) with (dutch_file w) in Hspec.
  destruct (dutch_file w) as [[d|]|] eqn:Hd; cbn [dutch_text_of] in Hspec.
  - destruct Hcause as [[=]|[Hf Hr]].
    rewrite (process_text_raises (c :: r) w1 UnicodeDecodeError) in Hspec.
    + destruct Hspec as [-> Hq]. split; [done|]. by eapply quiet_trans.
    + unfold load_translation_cache. change (cache_file w1) with (cache_file w).
      change (cache_readable w1) with (cache_readable w). by rewrite Hf, Hr.
  - destruct Hspec as [-> Hq]. split; [done|]. by eapply quiet_trans.
  - destruct Hcause as [[=]|[Hf Hr]].
    rewrite (process_text_raises (c :: r) w1 UnicodeDecodeError) in Hspec.
    + destruct Hspec as [-> Hq]. split; [done|]. by eapply quiet_trans.
    + unfold load_translation_cache. change (cache_file w1) with (cache_file w).
      change (cache_readable w1) with (cache_readable w). by rewrite Hf, Hr.
Qed.

(** X19: when the input is not blank and [input_dutch.txt] cannot be
    decoded, or the cache file is there, can be opened and is not UTF-8,
    [main] fails with [UnicodeDecodeError] before any annotation: no page
    is written, no collaborator is called and the cache file is left as it
    was. *)
Theorem main_stops_before_annotation w :
  input_file w = None \/
  (exists raw, input_file w = Some (Utf8Text raw) /\ strip raw <> []) ->
  dutch_file w = Some Undecodable \/
  (cache_file w = Some NotUtf8 /\ cache_readable w = true) ->
  (main w).1 = Raise UnicodeDecodeError /\
  output_file (main w).2 = output_file w /\
  trace (main w).2 = trace w /\
  cache_file (main w).2 = cache_file w.
Proof.
  intros [Hin|(raw & Hin & Hne)] Hcause.
  - rewrite (main_absent _ Hin).
    match goal with |- context [main ?x] => set (w0 := x) end.
    assert (strip sample_text <> []) as Hne.
    { pose proof sample_text_not_blank as Hs. intros E. by rewrite E in Hs. }
    destruct (main_present_stops w0 sample_text eq_refl Hne Hcause)
      as (Hres & Hcf & _ & _ & Hout & Htr).
    split; [done|]. split; [by rewrite Hout|]. split; [|by rewrite Hcf].
    rewrite Htr. unfold w0, log, write_input. cbn [snd trace].
    by rewrite app_nil_r.
  - destruct (main_present_stops w raw Hin Hne Hcause)
      as (Hres & Hcf & _ & _ & Hout & Htr).
    done.
Qed.

(** X20: when [input.txt] is absent, [main] creates it with the sample
    text and goes on with the sample: the file holds the sample when
    [main] is over, and [main] does not leave through [sys.exit(1)]. *)
Theorem main_creates_sample_input w :
  input_file w = None ->
  input_file (main w).2 = Some (Utf8Text sample_text) /\
  (main w).1 <> Raise (SystemExit 1).
Proof.
  intros Hin. rewrite (main_absent _ Hin).
  set (w0 := log [] _ (write_input sample_text w).2).
  assert (input_file w0 = Some (Utf8Text sample_text)) as Hin0 by done.
  split.
  - rewrite (main_present _ _ Hin0). cbn [read_text].
    rewrite sample_text_not_blank. cbn [negb].
    by destruct (main_process_spec (strip sample_text)
                   (log [] [u "üìñ Lezen van 'input.txt'..."] w0)) as [_ ->].
  - intros Hfail.
    destruct (main_present_failure _ _ _ Hin0 Hfail) as (_ & _ & Hexit).
    destruct (Hexit eq_refl) as (raw & [= <-] & Hblank).
    pose proof sample_text_not_blank as Hs. by rewrite Hblank in Hs.
Qed.

(** ** Runs in which no call fails *)

Lemma steps_gloss_ok words cache w cache' items evs lines r :
  steps words cache w cache' items evs lines ->
  List.filter is_failure evs = [] ->
  r ∈ items -> Item.is_chinese r = true ->
  cache' !! Item.chinese r = Some (Item.dutch r).
Proof.
  induction 1 as [|word words cache w c1 i1 e1 l1 c2 i2 e2 l2 Hstep Hrest IH];
    intros Hok Hr Hflag; [by apply elem_of_nil in Hr|].
  rewrite List.filter_app in Hok. apply app_eq_nil in Hok as [Hok1 Hok2].
  apply elem_of_app in Hr as [Hr|Hr]; [|by apply IH].
  pose proof (steps_mono _ _ _ _ _ _ _ Hrest) as Hmono.
  destruct Hstep as [He|Hne Hc|cached Hc Hl|t Hc Hl Ht|e Hc Hl Ht];
    try (by apply elem_of_nil in Hr); try discriminate;
    apply list_elem_of_singleton in Hr as ->; simpl in *.
  - discriminate.
  - by eapply lookup_weaken.
  - eapply lookup_weaken; [|done]. apply lookup_insert_eq.
Qed.

(** X22: in a run in which no call to the translation service failed,
    two records with the same surface are equal; the record the unique
    list keeps for a surface is then also its first one. *)
Theorem same_surface_same_record text w results w' r1 r2 :
  process_text text w = (Ok results, w') ->
  List.filter is_failure (new_calls w w') = [] ->
  r1 ∈ results -> r2 ∈ results ->
  Item.chinese r1 = Item.chinese r2 -> r1 = r2.
Proof.
  intros (cache & cache' & evs & _ & Hsteps & Htr & _)%process_text_run.
  unfold new_calls. rewrite (new_calls_drop _ _ _ Htr). cbn [List.filter is_failure].
  intros Hok Hr1 Hr2 Hsame.
  destruct (steps_records _ _ _ _ _ _ _ r1 Hsteps Hr1) as (_ & Hf1 & He1).
  destruct (steps_records _ _ _ _ _ _ _ r2 Hsteps Hr2) as (_ & Hf2 & He2).
  assert (Item.is_chinese r1 = Item.is_chinese r2) as Hflag by congruence.
  destruct (Item.is_chinese r2) eqn:Hc2.
  - pose proof (steps_gloss_ok _ _ _ _ _ _ _ r1 Hsteps Hok Hr1 Hflag) as Hg1.
    pose proof (steps_gloss_ok _ _ _ _ _ _ _ r2 Hsteps Hok Hr2 Hc2) as Hg2.
    assert (Item.dutch r1 = Item.dutch r2) as Hd by congruence.
    rewrite Hflag in He1. rewrite He1, He2. by rewrite Hsame, Hd.
  - rewrite Hflag in He1. rewrite He1, He2. by rewrite Hsame.
Qed.

(** The surfaces of the records are never empty. *)
Lemma process_text_surfaces_not_empty text w results w' :
  process_text text w = (Ok results, w') ->
  Forall (fun r => Item.chinese r <> []) results.
Proof.
  intros (cache & cache' & evs & _ & Hsteps & _)%process_text_run.
  apply Forall_forall. intros r Hr.
  by destruct (steps_records _ _ _ _ _ _ _ r Hsteps Hr).
Qed.

(** ** A word whose translation failed *)







End Pipeline.

(** ** Vocabulary statistics *)

Lemma by_chinese_snoc l r :
  by_chinese (l ++ [r]) = dict_set (by_chinese l) (Item.chinese r) r.
Proof. unfold by_chinese. by rewrite foldl_app. Qed.

Lemma dict_set_keys {V} (d : list (pystr * V)) k v :
  map fst (dict_set d k v)
  = if decide (k ∈ map fst d) then map fst d else map fst d ++ [k].
Proof.
  induction d as [|[k' v'] d IH]; cbn [dict_set map fst].
  - destruct (decide (k ∈ [])) as [Hin|_]; [by apply elem_of_nil in Hin|done].
  - destruct (decide (k' = k)) as [->|Hne]; cbn [map fst].
    + destruct (decide (k ∈ k :: map fst d)) as [_|Hn]; [done|].
      exfalso. apply Hn. left.
    + rewrite IH. destruct (decide (k ∈ map fst d)) as [Hin|Hin];
        destruct (decide (k ∈ k' :: map fst d)) as [Hin'|Hin']; try done.
      * exfalso. apply Hin'. by right.
      * apply elem_of_cons in Hin' as [?|?]; congruence.
Qed.

Lemma dict_set_elem {V} (d : list (pystr * V)) k v k0 v0 :
  NoDup (map fst d) ->
  (k0, v0) ∈ dict_set d k v -> (k0 = k /\ v0 = v) \/ ((k0, v0) ∈ d /\ k0 <> k).
Proof.
  induction d as [|[k' v'] d IH]; simpl; intros Hnd Hin.
  - apply list_elem_of_singleton in Hin. injection Hin as -> ->. by left.
  - apply NoDup_cons in Hnd as [Hk' Hnd].
    destruct (decide (k' = k)) as [->|Hne].
    + apply elem_of_cons in Hin as [Hin|Hin].
      * injection Hin as -> ->. by left.
      * right. split; [by right|]. intros ->. apply Hk'.
        apply list_elem_of_fmap. by exists (k, v0).
    + apply elem_of_cons in Hin as [Hin|Hin].
      * injection Hin as -> ->. right. split; [left|done].
      * destruct (IH Hnd Hin) as [?|[? ?]]; [by left|]. right. split; [by right|done].
Qed.

Lemma elem_of_first_occurrences x l : x ∈ first_occurrences l <-> x ∈ l.
Proof.
  induction l as [|a l IH]; simpl; [done|].
  rewrite !elem_of_cons, list_elem_of_filter, IH.
  destruct (decide (x = a)); tauto.
Qed.

Lemma NoDup_first_occurrences l : NoDup (first_occurrences l).
Proof.
  induction l as [|a l IH]; simpl; [constructor|].
  apply NoDup_cons. split; [|by apply NoDup_filter].
  rewrite list_elem_of_filter. tauto.
Qed.

Lemma first_occurrences_snoc l x :
  first_occurrences (l ++ [x])
  = if decide (x ∈ l) then first_occurrences l else first_occurrences l ++ [x].
Proof.
  induction l as [|a l IH].
  - cbn [app first_occurrences]. rewrite filter_nil.
    destruct (decide (x ∈ [])) as [Hin|_]; [by apply elem_of_nil in Hin|done].
  - rewrite <- app_comm_cons. cbn [first_occurrences]. rewrite IH.
    destruct (decide (x ∈ l)) as [Hin|Hin];
      destruct (decide (x ∈ a :: l)) as [Hin'|Hin']; try done.
    + exfalso. apply Hin'. by right.
    + apply elem_of_cons in Hin' as [->|?]; [|done].
      rewrite filter_app, filter_cons_False, filter_nil, app_nil_r; [done|].
      by intros ?.
    + rewrite filter_app, filter_cons_True, filter_nil; [done|].
      intros ->. apply Hin'. left.
Qed.

(** The [dict] built from the records: its keys are the surfaces in the
    order they first occur, and each value is the last record with that
    surface. *)
Lemma by_chinese_spec l :
  map fst (by_chinese l) = first_occurrences (map Item.chinese l) /\
  forall k r, (k, r) ∈ by_chinese l ->
    Item.chinese r = k /\
    exists l1 l2, l = l1 ++ r :: l2 /\
                  forall r', r' ∈ l2 -> Item.chinese r' <> k.
Proof.
  induction l as [|x l [IHk IHv]] using rev_ind.
  - split; [done|]. intros k r Hin. by apply elem_of_nil in Hin.
  - rewrite by_chinese_snoc. split.
    + rewrite dict_set_keys, map_app. cbn [map].
      rewrite first_occurrences_snoc, IHk.
      destruct (decide (Item.chinese x ∈ map Item.chinese l)) as [Hin|Hin];
        destruct (decide (Item.chinese x ∈ first_occurrences (map Item.chinese l)))
          as [Hin'|Hin']; try done.
      * exfalso. by apply Hin', elem_of_first_occurrences.
      * exfalso. by apply Hin, elem_of_first_occurrences.
    + intros k r Hin. apply dict_set_elem in Hin as [[-> ->]|[Hin Hne]].
      * split; [done|]. exists l, []. split; [done|].
        intros r' Hr'. by apply elem_of_nil in Hr'.
      * destruct (IHv k r Hin) as (Hk & l1 & l2 & -> & Hlast).
        split; [done|]. exists l1, (l2 ++ [x]).
        split; [by rewrite <- app_assoc|].
        intros r' [Hr'| ->%list_elem_of_singleton]%elem_of_app; [by apply Hlast|done].
      * rewrite IHk. apply NoDup_first_occurrences.
Qed.

Lemma length_first_occurrences l : (length (first_occurrences l) <= length l)%nat.
Proof.
  induction l as [|a l IH]; simpl; [lia|].
  pose proof (length_filter (fun y => y <> a) (first_occurrences l)). lia.
Qed.

(** C1, amended: the unique-word list holds one record per surface of the
    Chinese records, in the order in which the surfaces first occur, and the
    record kept for a surface is the last one with that surface: no later
    Chinese record has it.  The records dropped from the list are still in
    [chinese_words], whose length is the total. *)
Theorem unique_words_keeps_last results :
  map Item.chinese (unique_words results)
  = first_occurrences (map Item.chinese (chinese_words results)) /\
  (forall r, r ∈ unique_words results ->
     Item.is_chinese r = true /\
     exists l1 l2, chinese_words results = l1 ++ r :: l2 /\
                   forall r', r' ∈ l2 -> Item.chinese r' <> Item.chinese r) /\
  (length (unique_words results) <= length (chinese_words results))%nat.
Proof.
  destruct (by_chinese_spec (chinese_words results)) as [Hkeys Hvals].
  assert (map Item.chinese (unique_words results)
          = map fst (by_chinese (chinese_words results))) as Hsame.
  { unfold unique_words. rewrite map_map. apply map_ext_in.
    intros [k r] Hin%list_elem_of_In. simpl. by apply Hvals. }
  split; [by rewrite Hsame|]. split.
  - intros r Hr. unfold unique_words in Hr.
    apply list_elem_of_fmap in Hr as ([k r0] & -> & Hin). simpl.
    destruct (Hvals k r0 Hin) as (Hk & l1 & l2 & Hsplit & Hlast).
    split.
    + assert (r0 ∈ chinese_words results) as Hmem.
      { rewrite Hsplit. apply elem_of_app. right. left. }
      unfold chinese_words in Hmem.
      apply list_elem_of_In, filter_In in Hmem. tauto.
    + exists l1, l2. split; [done|]. by rewrite Hk.
  - rewrite <- (length_map Item.chinese (unique_words results)), Hsame, Hkeys.
    etrans; [apply length_first_occurrences|]. by rewrite length_map.
Qed.

(** * Examples *)

(** C1 as stated fails: the service fails for the first ["谢"] and answers
    for the second; the unique list keeps the second record, not the
    first. *)
Lemma unique_words_first_wins_counterexample :
  (process_text Demo.cut Demo.readings Demo.level Demo.parts Demo.flaky
     (u "谢谢") (Demo.fresh (u "谢谢"))).1
  = Ok [Demo.thanks_failed; Demo.thanks_translated] /\
  Item.chinese Demo.thanks_failed = Item.chinese Demo.thanks_translated /\
  unique_words [Demo.thanks_failed; Demo.thanks_translated] = [Demo.thanks_translated] /\
  Demo.thanks_translated <> Demo.thanks_failed.
Proof.
  split; [vm_compute; reflexivity|]. split; [reflexivity|].
  split; [vm_compute; reflexivity|]. intros H. discriminate H.
Qed.



(** C6: a cache file that is not UTF-8 makes [load_translation_cache] raise
    [UnicodeDecodeError], which neither [except] clause catches, and
    [process_text] raises with it. *)
Theorem load_raises_on_undecodable_cache :
  load_translation_cache Demo.corrupt = (Raise UnicodeDecodeError, Demo.corrupt) /\
  process_text Demo.cut Demo.readings Demo.level Demo.parts Demo.up
    (u "你好") Demo.corrupt = (Raise UnicodeDecodeError, Demo.corrupt).
Proof. split; reflexivity. Qed.

(** The service is down for the only word of the text: the record has the
    gloss ["?"], the warning is printed and [process_text] returns. *)
Lemma failed_translation_witness :
  exists results w',
    process_text Demo.cut Demo.readings Demo.level Demo.parts Demo.down
      (u "谢") (Demo.fresh (u "谢")) = (Ok results, w') /\
    map Item.chinese results
    = filter (fun s => s <> []) (map strip (Demo.cut (u "谢"))) /\
    results !! length (@nil Item.t)
    = Some (chinese_item Demo.readings Demo.level Demo.parts (strip (u "谢")) (u "?")) /\
    translate_warning (strip (u "谢")) (u "timeout") ∈ stdout w'.
Proof.
  destruct (failed_translation_is_contained
              Demo.cut Demo.readings Demo.level Demo.parts Demo.down
              (u "谢") (Demo.fresh (u "谢")) ∅ [] (u "谢") [] ∅ []
              (log [Cut (u "谢")] [] (Demo.fresh (u "谢"))) (u "timeout"))
    as (_ & _ & _ & _ & H); [vm_compute; reflexivity ..|exact H].
Defined.


(** The translation recorded for ["你"] is still there after ["好"]. *)
Lemma cache_only_grows_witness :
  (process_words Demo.readings Demo.level Demo.parts Demo.up
     ([u "你"] ++ [u "好"]) (∅, []) (Demo.fresh [])).1.1 !! u "你"
  = Some (u "nl:你").
Proof.
  apply (cache_only_grows Demo.readings Demo.level Demo.parts Demo.up
           [u "你"] [u "好"] ∅ [] (Demo.fresh []) (u "你") (u "nl:你")).
  vm_compute. reflexivity.
Defined.

(** A full-width comma between spaces. *)
Lemma non_chinese_passthrough_witness :
  exists r,
    process_word Demo.readings Demo.level Demo.parts Demo.up
      (u " ， ") (∅, []) (Demo.fresh []) = ((∅, [] ++ [r]), Demo.fresh []) /\
    Item.chinese r = strip (u " ， ") /\ Item.pinyin r = strip (u " ， ") /\
    Item.dutch r = strip (u " ， ") /\ Item.hsk_level r = 0 /\
    Item.breakdown r = None /\ Item.is_chinese r = false.
Proof.
  apply (non_chinese_passthrough Demo.readings Demo.level Demo.parts Demo.up
           (u " ， ") ∅ [] (Demo.fresh [])).
  - vm_compute. intros H. discriminate H.
  - vm_compute. reflexivity.
Defined.

(** Two words around a space: the space leaves no record. *)
Lemma surfaces_witness :
  exists results w',
    process_text Demo.cut Demo.readings Demo.level Demo.parts Demo.up
      (u "你 好") (Demo.fresh (u "你 好")) = (Ok results, w') /\
    map Item.chinese results = [u "你"; u "好"] /\
    Forall (fun r =>
              Item.chinese r <> [] /\
              (forall c rest, Item.chinese r = c :: rest -> isspace c = false) /\
              (forall c, last (Item.chinese r) = Some c -> isspace c = false)) results.
Proof.
  eexists _, _. split; [vm_compute; reflexivity|].
  split; [vm_compute; reflexivity|].
  eapply (surfaces_are_stripped_tokens
            Demo.cut Demo.readings Demo.level Demo.parts Demo.up
            (u "你 好") (Demo.fresh (u "你 好"))).
  vm_compute. reflexivity.
Defined.

(** An [input.txt] holding only a space and a newline. *)
Lemma main_stops_witness :
  main Demo.cut Demo.readings Demo.level Demo.parts Demo.up Demo.page
    (Demo.fresh (u " " ++ [10]))
  = (Raise (SystemExit 1),
     log [] [u "üìñ Lezen van 'input.txt'...";
             u "‚ùå Het invoerbestand is leeg. Voeg Chinese tekst toe aan input.txt"]
         (Demo.fresh (u " " ++ [10]))).
Proof.
  apply (proj1 (main_stops_on_empty_input
                  Demo.cut Demo.readings Demo.level Demo.parts Demo.up Demo.page
                  (Demo.fresh (u " " ++ [10]))) (u " " ++ [10]));
    vm_compute; reflexivity.
Defined.

(** A year written with digits and one ideograph is Chinese. *)
Lemma is_chinese_mixed_witness : is_chinese (u "2023" ++ 0x5e74 :: u "!") = true.
Proof. apply (proj1 (proj2 is_chinese_spec)). lia. Defined.


(** The two records of ["谢"]: the unique list has one word for two. *)
Lemma unique_words_witness :
  map Item.chinese (unique_words [Demo.thanks_failed; Demo.thanks_translated])
  = first_occurrences
      (map Item.chinese (chinese_words [Demo.thanks_failed; Demo.thanks_translated])).
Proof.
  apply (unique_words_keeps_last [Demo.thanks_failed; Demo.thanks_translated]).
Defined.

(** * Further properties of the statistics *)

(** ** The counts per level *)

Lemma hsk_count_step (counts : gmap Z Z) level lv :
  default 0 (<[level := default 0 (counts !! level) + 1]> counts !! lv)
  = default 0 (counts !! lv) + (if decide (level = lv) then 1 else 0).
Proof.
  destruct (decide (level = lv)) as [->|Hne].
  - by rewrite lookup_insert_eq.
  - rewrite lookup_insert_ne by done. lia.
Qed.

Lemma hsk_fold_count (counts : gmap Z Z) (l : list Item.t) lv :
  default 0 (foldl (fun counts word =>
                      let level := Item.hsk_level word in
                      <[level := default 0 (counts !! level) + 1]> counts)
                   counts l !! lv)
  = default 0 (counts !! lv)
    + Z.of_nat (length (filter (fun r => Item.hsk_level r = lv) l)).
Proof.
  revert counts. induction l as [|a l IH]; intros counts; [simpl; lia|].
  cbn [foldl]. rewrite IH. cbv zeta. rewrite hsk_count_step.
  destruct (decide (Item.hsk_level a = lv)) as [Ha|Ha].
  - rewrite filter_cons_True by done. cbn [length]. lia.
  - rewrite filter_cons_False by done. lia.
Qed.

Lemma hsk_fold_positive (counts : gmap Z Z) (l : list Item.t) :
  (forall k n, counts !! k = Some n -> 0 < n) ->
  forall k n,
    foldl (fun counts word =>
             let level := Item.hsk_level word in
             <[level := default 0 (counts !! level) + 1]> counts)
          counts l !! k = Some n -> 0 < n.
Proof.
  revert counts. induction l as [|a l IH]; intros counts Hpos; [done|].
  cbn [foldl]. apply IH. cbv zeta. intros k n.
  destruct (decide (Item.hsk_level a = k)) as [Heq|Hne].
  - rewrite Heq, lookup_insert_eq. intros [= <-].
    destruct (counts !! k) as [m|] eqn:E; simpl; [|lia].
    specialize (Hpos _ _ E). lia.
  - rewrite lookup_insert_ne by done. apply Hpos.
Qed.

Lemma length_filter_or (P Q : Item.t -> Prop)
    `{!forall x, Decision (P x), !forall x, Decision (Q x)} (l : list Item.t) :
  (forall x, P x -> Q x -> False) ->
  length (filter (fun x => P x \/ Q x) l)
  = (length (filter P l) + length (filter Q l))%nat.
Proof.
  intros Hdis. induction l as [|a l IH]; [done|].
  destruct (decide (P a)) as [Hp|Hp]; destruct (decide (Q a)) as [Hq|Hq].
  - by destruct (Hdis a).
  - rewrite (filter_cons_True (fun x => P x \/ Q x)) by tauto.
    rewrite (filter_cons_True P), (filter_cons_False Q) by done.
    cbn [length]. lia.
  - rewrite (filter_cons_True (fun x => P x \/ Q x)) by tauto.
    rewrite (filter_cons_False P), (filter_cons_True Q) by done.
    cbn [length]. lia.
  - rewrite (filter_cons_False (fun x => P x \/ Q x)) by tauto.
    by rewrite (filter_cons_False P), (filter_cons_False Q) by done.
Qed.

(** X14: [hsk_counts] has an entry for a level exactly when a unique word
    has that level, and the entry is the number of unique words of the
    level; so the figure shown for HSK 1-2 is the number of unique words of
    level 1 or 2. *)
Theorem hsk_counts_spec results level :
  hsk_counts results !! level
  = (let n := length (filter (fun r => Item.hsk_level r = level)
                        (unique_words results)) in
     if decide (n = 0%nat) then None else Some (Z.of_nat n)) /\
  hsk_1_2 results
  = Z.of_nat (length (filter (fun r => Item.hsk_level r = 1 \/ Item.hsk_level r = 2)
                        (unique_words results))).
Proof.
  assert (forall lv, default 0 (hsk_counts results !! lv)
                     = Z.of_nat (length (filter (fun r => Item.hsk_level r = lv)
                                           (unique_words results)))) as Hcount.
  { intros lv. unfold hsk_counts. rewrite hsk_fold_count.
    by rewrite lookup_empty. }
  split.
  - cbv zeta. specialize (Hcount level).
    destruct (hsk_counts results !! level) as [n|] eqn:E; simpl in Hcount.
    + assert (0 < n) as Hpos.
      { unfold hsk_counts in E. eapply hsk_fold_positive; [|exact E].
        intros k m. by rewrite lookup_empty. }
      destruct (decide (_ = 0%nat)) as [Hz|Hz]; [lia|]. by rewrite Hcount.
    + destruct (decide (_ = 0%nat)) as [Hz|Hz]; [done|lia].
  - unfold hsk_1_2. rewrite !Hcount, length_filter_or; [lia|].
    intros x. lia.
Qed.

Lemma counts_sum_step (counts : gmap Z Z) level :
  counts_sum (<[level := default 0 (counts !! level) + 1]> counts)
  = counts_sum counts + 1.
Proof.
  unfold counts_sum. destruct (counts !! level) as [n|] eqn:E; simpl.
  - rewrite <- insert_delete_eq.
    rewrite map_fold_insert_L; [|intros; lia|apply lookup_delete_eq].
    rewrite (map_fold_delete_L _ _ level n counts); [lia|intros; lia|done].
  - rewrite map_fold_insert_L; [lia|intros; lia|done].
Qed.

Lemma counts_sum_fold (counts : gmap Z Z) (l : list Item.t) :
  counts_sum (foldl (fun counts word =>
                       let level := Item.hsk_level word in
                       <[level := default 0 (counts !! level) + 1]> counts)
                    counts l)
  = counts_sum counts + Z.of_nat (length l).
Proof.
  revert counts. induction l as [|a l IH]; intros counts; [simpl; lia|].
  cbn [foldl length]. rewrite IH. cbv zeta. rewrite counts_sum_step. lia.
Qed.

(** X15: the counts of [hsk_counts] add up to the number of unique
    words. *)
Theorem hsk_counts_sum results :
  counts_sum (hsk_counts results) = Z.of_nat (length (unique_words results)).
Proof.
  unfold hsk_counts. rewrite counts_sum_fold.
  unfold counts_sum. by rewrite map_fold_empty.
Qed.

(** ** The unique words *)

Lemma unique_words_surfaces results :
  map Item.chinese (unique_words results)
  = first_occurrences (map Item.chinese (chinese_words results)).
Proof.
  destruct (by_chinese_spec (chinese_words results)) as [Hkeys Hvals].
  rewrite <- Hkeys. unfold unique_words. rewrite map_map. apply map_ext_in.
  intros [k r] Hin%list_elem_of_In. simpl. by apply Hvals.
Qed.

Lemma unique_words_subset results r :
  r ∈ unique_words results -> r ∈ results /\ Item.is_chinese r = true.
Proof.
  destruct (by_chinese_spec (chinese_words results)) as [_ Hvals].
  unfold unique_words. intros ([k r0] & -> & Hin)%list_elem_of_fmap. simpl.
  destruct (Hvals k r0 Hin) as (_ & l1 & l2 & Hsplit & _).
  assert (r0 ∈ chinese_words results) as Hmem.
  { rewrite Hsplit. apply elem_of_app. right. left. }
  unfold chinese_words in Hmem.
  apply list_elem_of_In, filter_In in Hmem as [Hmem ?].
  split; [by apply list_elem_of_In|done].
Qed.

(** X16: no two records of the unique list have the same surface, every
    one of them is a Chinese record of the input, and the surface of every
    Chinese record of the input is the surface of one of them. *)
Theorem unique_words_distinct_and_complete results :
  NoDup (map Item.chinese (unique_words results)) /\
  (forall r, r ∈ unique_words results -> r ∈ results /\ Item.is_chinese r = true) /\
  (forall r, r ∈ results -> Item.is_chinese r = true ->
             Item.chinese r ∈ map Item.chinese (unique_words results)).
Proof.
  split; [|split].
  - rewrite unique_words_surfaces. apply NoDup_first_occurrences.
  - apply unique_words_subset.
  - intros r Hr Hflag. rewrite unique_words_surfaces.
    apply elem_of_first_occurrences, list_elem_of_fmap. exists r.
    split; [done|]. unfold chinese_words.
    apply list_elem_of_In, filter_In. split; [by apply list_elem_of_In|done].
Qed.

Lemma dict_set_fresh {V} (d : list (pystr * V)) k v :
  k ∉ map fst d -> dict_set d k v = d ++ [(k, v)].
Proof.
  induction d as [|[k' v'] d IH]; cbn [dict_set map fst app]; intros Hk; [done|].
  rewrite not_elem_of_cons in Hk. destruct Hk as [Hne Hk].
  destruct (decide (k' = k)) as [->|_]; [done|]. by rewrite IH.
Qed.

Lemma chinese_words_all l :
  Forall (fun r => Item.is_chinese r = true) l -> chinese_words l = l.
Proof.
  unfold chinese_words. induction 1 as [|a l Ha _ IH]; [done|].
  cbn [List.filter]. by rewrite Ha, IH.
Qed.

Lemma by_chinese_distinct l :
  NoDup (map Item.chinese l) ->
  by_chinese l = map (fun r => (Item.chinese r, r)) l.
Proof.
  induction l as [|x l IH] using rev_ind; intros Hnd; [done|].
  rewrite map_app in Hnd. apply NoDup_app in Hnd as (Hnd & Hx & _).
  rewrite by_chinese_snoc, (IH Hnd), map_app. apply dict_set_fresh.
  rewrite map_map. cbn [fst]. intros Hin. apply (Hx _ Hin). left.
Qed.

Lemma unique_words_fixed l :
  Forall (fun r => Item.is_chinese r = true) l ->
  NoDup (map Item.chinese l) ->
  unique_words l = l.
Proof.
  intros Hall Hnd. unfold unique_words.
  rewrite (chinese_words_all _ Hall), (by_chinese_distinct _ Hnd), map_map.
  cbn [snd]. apply map_id.
Qed.

(** X17: [unique_words] gives back the list it is given exactly when all
    its records are Chinese and have distinct surfaces; so taking the
    unique words of a unique list changes nothing. *)
Theorem unique_words_idempotent results :
  (unique_words results = results <->
   Forall (fun r => Item.is_chinese r = true) results /\
   NoDup (map Item.chinese results)) /\
  unique_words (unique_words results) = unique_words results.
Proof.
  assert (Forall (fun r => Item.is_chinese r = true) (unique_words results) /\
          NoDup (map Item.chinese (unique_words results))) as [Hall Hnd].
  { split.
    - apply Forall_forall. intros r Hr.
      by destruct (unique_words_subset _ _ Hr).
    - rewrite unique_words_surfaces. apply NoDup_first_occurrences. }
  split; [|by apply unique_words_fixed]. split.
  - intros Heq. by rewrite Heq in Hall, Hnd.
  - intros [? ?]. by apply unique_words_fixed.
Qed.

(** ** The figures of the statistics *)

Lemma total_characters_bound l :
  Forall (fun r => Item.chinese r <> []) l ->
  (length (chinese_words l) <= total_characters l)%nat.
Proof.
  unfold total_characters, chinese_words.
  induction 1 as [|a l Ha _ IH]; [done|].
  cbn [List.filter]. destruct (Item.is_chinese a); [|exact IH].
  cbn [foldr length]. destruct (Item.chinese a); [done|]. cbn [length]. lia.
Qed.

(** X21: for the list a run returns, the three figures [main] and
    [generate_html] show are ordered: there are at most as many unique
    words as Chinese words, and at most as many Chinese words as
    characters in them. *)
Theorem statistics_are_ordered
    jieba_cut pinyin get_hsk_level get_character_breakdown translate
    text w results w' :
  process_text jieba_cut pinyin get_hsk_level get_character_breakdown translate
    text w = (Ok results, w') ->
  (length (unique_words results) <= length (chinese_words results))%nat /\
  (length (chinese_words results) <= total_characters results)%nat.
Proof.
  intros Hrun. split.
  - rewrite <- (length_map Item.chinese (unique_words results)),
      unique_words_surfaces.
    etrans; [apply length_first_occurrences|]. by rewrite length_map.
  - apply total_characters_bound.
    by eapply process_text_surfaces_not_empty.
Qed.

(** * Examples for the further properties *)

Local Abbreviation demo_run translate text w :=
  (process_text Demo.cut Demo.readings Demo.level Demo.parts translate text w).

(** A word and a comma. *)
Lemma records_follow_classifier_witness :
  exists results w',
    demo_run Demo.up (u "你，") (Demo.fresh (u "你，")) = (Ok results, w') /\
    Forall (fun r =>
              Item.is_chinese r = is_chinese (Item.chinese r) /\
              r = (if Item.is_chinese r
                   then chinese_item Demo.readings Demo.level Demo.parts
                          (Item.chinese r) (Item.dutch r)
                   else plain_item (Item.chinese r))) results.
Proof.
  eexists _, _. split; [vm_compute; reflexivity|].
  eapply (records_follow_classifier Demo.cut Demo.readings Demo.level Demo.parts
            Demo.up (u "你，") (Demo.fresh (u "你，"))).
  vm_compute. reflexivity.
Defined.

(** The service fails for the first word and answers for the second. *)
Lemma gloss_is_sentinel_or_saved_witness :
  exists results w',
    demo_run Demo.flaky (u "你好") (Demo.fresh (u "你好")) = (Ok results, w') /\
    exists saved,
      cache_file w' = Some (JsonObject saved) /\
      Forall (fun r => Item.is_chinese r = true ->
                       Item.dutch r = u "?" \/
                       saved !! Item.chinese r = Some (Item.dutch r)) results.
Proof.
  eexists _, _. split; [vm_compute; reflexivity|].
  eapply (gloss_is_sentinel_or_saved Demo.cut Demo.readings Demo.level Demo.parts
            Demo.flaky (u "你好") (Demo.fresh (u "你好")));
    [vm_compute; reflexivity|reflexivity].
Defined.

(** With ["你"] in the cache, the only call is for ["好"]. *)
Lemma calls_only_for_new_chinese_words_witness :
  exists results w',
    demo_run Demo.up (u "你好") (Worlds.cached (u "你好")) = (Ok results, w') /\
    is_chinese (u "好") = true /\
    ({[ u "你" := u "jij" ]} : gmap pystr pystr) !! u "好" = None /\
    u "好" ∈ map Item.chinese results.
Proof.
  eexists _, _. split; [vm_compute; reflexivity|].
  eapply (calls_only_for_new_chinese_words
            Demo.cut Demo.readings Demo.level Demo.parts Demo.up
            (u "你好") (Worlds.cached (u "你好")) _ _ _ (u "好")
            (Returns (u "nl:好")));
    [vm_compute; reflexivity|reflexivity|].
  vm_compute. do 5 right. left.
Defined.

(** Three tokens, two distinct new words: two calls. *)
Lemma call_count_witness :
  exists results w',
    demo_run Demo.up (u "好你好") (Worlds.cached (u "好你好")) = (Ok results, w') /\
    (ncalls (new_calls (Worlds.cached (u "好你好")) w')
     <= length (chinese_words results))%nat /\
    (List.filter is_failure (new_calls (Worlds.cached (u "好你好")) w') = [] ->
     ncalls (new_calls (Worlds.cached (u "好你好")) w')
     = length (new_words {[ u "你" := u "jij" ]}
                 (map strip (Demo.cut (u "好你好"))))).
Proof.
  eexists _, _. split; [vm_compute; reflexivity|].
  eapply (call_count Demo.cut Demo.readings Demo.level Demo.parts Demo.up
            (u "好你好") (Worlds.cached (u "好你好")));
    [vm_compute; reflexivity|reflexivity].
Defined.

(** The saved cache holds ["你"] as loaded and ["好"] as translated. *)
Lemma saved_cache_contents_witness :
  exists results w',
    demo_run Demo.up (u "你好") (Worlds.cached (u "你好")) = (Ok results, w') /\
    exists saved,
      cache_file w' = Some (JsonObject saved) /\
      ({[ u "你" := u "jij" ]} : gmap pystr pystr) ⊆ saved /\
      forall k v, saved !! k = Some v <->
                  ({[ u "你" := u "jij" ]} : gmap pystr pystr) !! k = Some v \/
                  Translate k (Returns v) ∈ new_calls (Worlds.cached (u "你好")) w'.
Proof.
  eexists _, _. split; [vm_compute; reflexivity|].
  eapply (saved_cache_contents Demo.cut Demo.readings Demo.level Demo.parts Demo.up
            (u "你好") (Worlds.cached (u "你好")));
    [vm_compute; reflexivity|reflexivity|reflexivity].
Defined.

(** One failed call and a failed save: two lines. *)
Lemma printed_lines_witness :
  exists results w',
    demo_run Demo.down (u "你") (Worlds.read_only (u "你")) = (Ok results, w') /\
    new_lines (Worlds.read_only (u "你")) w'
    = warnings_of (new_calls (Worlds.read_only (u "你")) w')
      ++ save_warning (Worlds.read_only (u "你")).
Proof.
  eexists _, _. split; [vm_compute; reflexivity|].
  eapply (printed_lines Demo.cut Demo.readings Demo.level Demo.parts Demo.down
            (u "你") (Worlds.read_only (u "你")) ∅);
    [vm_compute; reflexivity|reflexivity].
Defined.

Lemma collaborators_called_once_per_record_witness :
  exists results w',
    demo_run Demo.up (u "你，好") (Demo.fresh (u "你，好")) = (Ok results, w') /\
    cut_calls (new_calls (Demo.fresh (u "你，好")) w') = [u "你，好"] /\
    pinyin_calls (new_calls (Demo.fresh (u "你，好")) w')
    = map Item.chinese (chinese_words results) /\
    hsk_calls (new_calls (Demo.fresh (u "你，好")) w')
    = map Item.chinese (chinese_words results) /\
    breakdown_calls (new_calls (Demo.fresh (u "你，好")) w')
    = map Item.chinese (chinese_words results).
Proof.
  eexists _, _. split; [vm_compute; reflexivity|].
  eapply (collaborators_called_once_per_record
            Demo.cut Demo.readings Demo.level Demo.parts Demo.up
            (u "你，好") (Demo.fresh (u "你，好"))).
  vm_compute. reflexivity.
Defined.

(** The same run with a cache file that cannot be written. *)
Lemma results_depend_on_cache_and_service_witness :
  (demo_run Demo.up (u "你好") (Demo.fresh (u "你好"))).1
  = (demo_run Demo.up (u "你好") (Worlds.read_only (u "你好"))).1.
Proof.
  apply (results_depend_on_cache_and_service
           Demo.cut Demo.readings Demo.level Demo.parts Demo.up (u "你好")
           (Demo.fresh (u "你好")) (Worlds.read_only (u "你好")));
    reflexivity.
Defined.

Lemma failed_save_only_adds_warning_witness :
  exists w2,
    demo_run Demo.up (u "你") (Worlds.read_only (u "你"))
    = (Ok [chinese_item Demo.readings Demo.level Demo.parts (u "你") (u "nl:你")], w2) /\
    last (stdout w2)
    = Some (u "Warning: Could not save translation cache: " ++ u "disk full").
Proof.
  destruct (failed_save_only_adds_warning
              Demo.cut Demo.readings Demo.level Demo.parts Demo.up (u "你")
              (Worlds.read_only (u "你")) (u "disk full") _ _
              eq_refl eq_refl) as (w2 & Hrun & _ & Hout).
  exists w2. split; [exact Hrun|]. rewrite Hout. apply last_snoc.
Defined.


(** Two characters of the literal, with an entry in the cache. *)
Lemma translate_word_skips_punctuation_witness :
  translate_word Demo.up (u "„Ä") {[ u "„Ä" := u "x" ]} Worlds.no_files
  = ((u "„Ä", {[ u "„Ä" := u "x" ]}), Worlds.no_files).
Proof.
  apply (proj1 (translate_word_skips_punctuation Demo.up) (u "„Ä")).
  right. vm_compute.
  repeat (constructor; [apply char_in_spec; vm_compute; reflexivity|]).
  constructor.
Defined.

Lemma translate_word_records_witness :
  exists res cache' w',
    translate_word Demo.up (u "你") ∅ Worlds.no_files = ((res, cache'), w') /\
    (forall k, k <> u "你" -> cache' !! k = (∅ : gmap pystr pystr) !! k) /\
    ((res = u "?" /\ (∅ : gmap pystr pystr) !! u "你" = None /\ cache' = ∅) \/
     (cache' !! u "你" = Some res /\
      translate_word Demo.up (u "你") cache' w' = ((res, cache'), w'))).
Proof.
  eexists _, _, _. split; [vm_compute; reflexivity|].
  eapply (translate_word_records_what_it_returns Demo.up (u "你") ∅ Worlds.no_files);
    vm_compute; reflexivity.
Defined.


(** An [input_dutch.txt] that is not UTF-8. *)
Lemma main_stops_before_annotation_witness :
  (main Demo.cut Demo.readings Demo.level Demo.parts Demo.up Demo.page
     (World None true None (Some (Utf8Text (u "你好"))) (Some Undecodable) None
        [] [])).1
  = Raise UnicodeDecodeError.
Proof.
  apply (main_stops_before_annotation
           Demo.cut Demo.readings Demo.level Demo.parts Demo.up Demo.page
           (World None true None (Some (Utf8Text (u "你好"))) (Some Undecodable)
              None [] [])).
  - right. exists (u "你好"). split; [reflexivity|]. vm_compute. discriminate.
  - left. reflexivity.
Defined.

Lemma main_creates_sample_input_witness :
  input_file (main Demo.cut Demo.readings Demo.level Demo.parts Demo.up Demo.page
                Worlds.no_files).2 = Some (Utf8Text sample_text).
Proof.
  apply (main_creates_sample_input
           Demo.cut Demo.readings Demo.level Demo.parts Demo.up Demo.page
           Worlds.no_files).
  reflexivity.
Defined.

Lemma statistics_are_ordered_witness :
  exists results w',
    demo_run Demo.up (u "你好你") (Demo.fresh (u "你好你")) = (Ok results, w') /\
    (length (unique_words results) <= length (chinese_words results))%nat /\
    (length (chinese_words results) <= total_characters results)%nat.
Proof.
  eexists _, _. split; [vm_compute; reflexivity|].
  eapply (statistics_are_ordered Demo.cut Demo.readings Demo.level Demo.parts Demo.up
            (u "你好你") (Demo.fresh (u "你好你"))).
  vm_compute. reflexivity.
Defined.

(** The two records of ["你"] in a run without failure. *)
Lemma same_surface_same_record_witness :
  exists results w' r1 r2,
    demo_run Demo.up (u "你好你") (Demo.fresh (u "你好你")) = (Ok results, w') /\
    results !! 0%nat = Some r1 /\ results !! 2%nat = Some r2 /\ r1 = r2.
Proof.
  eexists _, _, _, _. split; [vm_compute; reflexivity|].
  split; [reflexivity|]. split; [reflexivity|].
  eapply (same_surface_same_record Demo.cut Demo.readings Demo.level Demo.parts
            Demo.up (u "你好你") (Demo.fresh (u "你好你")));
    [vm_compute; reflexivity|vm_compute; reflexivity
    |left|right; right; left|reflexivity].
Defined.
